(** * The tool-invocation pipeline of the Athena MCP server

    A shallow embedding of the request-handling layer of
    [src/mcp-server-improved.js]: the schema validator [validateInput], the
    response cache ([getCachedResponse], [setCachedResponse]), the retry
    executor [withRetry] and the [CallToolRequestSchema] request handler,
    followed by the properties of the specification that concern them. *)

From Stdlib Require Import ZArith String Ascii List Bool Lia.
From stdpp Require Import gmap strings list fin_maps pretty.

Local Open Scope string_scope.
Local Open Scope list_scope.
Local Open Scope Z_scope.

(** ** JavaScript values *)

(** The values that travel in an argument map.  The properties of an object are
    listed in the order in which [Object.entries] and [JSON.stringify]
    enumerate them; a string is a sequence of code units, one [ascii] each, so the strings
    of the model are those whose code units are below 256. *)
#[warnings="-register-all"]
Inductive jsval (num : Type) : Type :=
| JUndefined
| JNull
| JBool (b : bool)
| JNum (n : num)
| JStr (s : string)
| JArr (elems : list (jsval num))
| JObj (props : list (string * jsval num)).

Arguments JUndefined {num}.
Arguments JNull {num}.
Arguments JBool {num} b.
Arguments JNum {num} n.
Arguments JStr {num} s.
Arguments JArr {num} elems.
Arguments JObj {num} props.

(** The built-ins of the language that the pipeline calls on Number values.
    They belong to the runtime, not to the repository, and every result below
    holds for any implementation of them (IEEE-754 doubles in particular).
    [ToNumber] is the coercion that [<] and [>] apply to an operand that is not
    a Number already. *)
Class JsBuiltins := {
  number : Type;
  num_of_Z : Z -> number;
  num_lt : number -> number -> bool;
  num_json : number -> string;
  ToNumber : jsval number -> number;
}.

(** The result of [typeof]. *)
Inductive JsType := TyUndefined | TyObject | TyBoolean | TyNumber | TyString.

Global Instance JsType_eq_dec : EqDecision JsType.
Proof. solve_decision. Defined.

(** ** Errors *)

(** The error codes of the MCP SDK that this file raises. *)
Inductive ErrorCode := InvalidParams | MethodNotFound | InternalError.

Global Instance ErrorCode_eq_dec : EqDecision ErrorCode.
Proof. solve_decision. Defined.

(** [new McpError(code, message)], with the message as the constructor
    receives it. *)
Record McpError := { mcp_code : ErrorCode; mcp_message : string }.

(** Any other error object: the fields the pipeline inspects.  [err_code] is
    [error.code] when it is a string, [err_status] is [error.status] when it is
    an integer; a field of another type compares unequal to ['ENOTFOUND'], 401
    and 403 under [===], like an absent one. *)
Record JsError := {
  err_code : option string;
  err_status : option Z;
  err_message : string;
}.

(** What a [throw] carries: an instance of [McpError], or another error. *)
Inductive Thrown := ThrowMcp (e : McpError) | ThrowError (e : JsError).

(** The completion of a piece of code: a value, or a thrown error. *)
Inductive Completion (A : Type) : Type :=
| Normal (a : A)
| Abrupt (t : Thrown).

Arguments Normal {A} a.
Arguments Abrupt {A} t.

Definition cbind {A B} (c : Completion A) (k : A -> Completion B) : Completion B :=
  match c with
  | Normal a => k a
  | Abrupt t => Abrupt t
  end.

Declare Scope check_scope.
Delimit Scope check_scope with check.
Notation "x <-? c ; k" := (cbind c (fun x => k))
  (at level 100, c at next level, right associativity) : check_scope.
Notation "c ;? k" := (cbind c (fun _ => k))
  (at level 100, right associativity) : check_scope.

(** ** Strings: [join] and [JSON.stringify]'s quoting *)

Fixpoint join (sep : string) (l : list string) : string :=
  match l with
  | [] => ""
  | [s] => s
  | s :: rest => s +:+ sep +:+ join sep rest
  end.

Definition dquote : ascii := "034"%char.
Definition backslash : ascii := "092"%char.

Definition hex_digit (n : N) : ascii :=
  match n with
  | 10%N => "a" | 11%N => "b" | 12%N => "c" | 13%N => "d" | 14%N => "e" | 15%N => "f"
  | _ => ascii_of_N (48 + n)
  end%char.

(** One code unit inside a JSON string literal (QuoteJSONString). *)
Definition escape_unit (c : ascii) : string :=
  let n := N_of_ascii c in
  if (n =? 34)%N then String backslash (String dquote "")
  else if (n =? 92)%N then String backslash (String backslash "")
  else if (n =? 8)%N then String backslash "b"
  else if (n =? 12)%N then String backslash "f"
  else if (n =? 10)%N then String backslash "n"
  else if (n =? 13)%N then String backslash "r"
  else if (n =? 9)%N then String backslash "t"
  else if (n <? 32)%N then
    String backslash ("u00" +:+ String (hex_digit (n / 16)) (String (hex_digit (n mod 16)) ""))
  else String c "".

Fixpoint escape_units (s : string) : string :=
  match s with
  | EmptyString => ""
  | String c rest => escape_unit c +:+ escape_units rest
  end.

Definition quote (s : string) : string :=
  String dquote (escape_units s +:+ String dquote "").

Section Values.
Context `{JsBuiltins}.

Local Abbreviation value := (jsval number).

Definition typeof (v : value) : JsType :=
  match v with
  | JUndefined => TyUndefined
  | JNull => TyObject
  | JBool _ => TyBoolean
  | JNum _ => TyNumber
  | JStr _ => TyString
  | JArr _ => TyObject
  | JObj _ => TyObject
  end.

Definition is_undefined (v : value) : bool :=
  match v with JUndefined => true | _ => false end.

(** [value === undefined || value === null] *)
Definition nullish (v : value) : bool :=
  match v with JUndefined | JNull => true | _ => false end.

(** [obj[field]] on the own properties of an object. *)
Fixpoint get (props : list (string * value)) (field : string) : value :=
  match props with
  | [] => JUndefined
  | (k, v) :: rest => if String.eqb k field then v else get rest field
  end.

(** [JSON.stringify(v)]: [None] stands for the result [undefined].  A
    property whose value is [undefined] is left out of an object; in an
    array it is printed as [null]. *)
Fixpoint stringify (v : value) : option string :=
  match v with
  | JUndefined => None
  | JNull => Some "null"
  | JBool b => Some (if b then "true" else "false")
  | JNum n => Some (num_json n)
  | JStr s => Some (quote s)
  | JArr elems =>
      Some ("[" +:+ join "," (map (fun e => default "null" (stringify e)) elems) +:+ "]")
  | JObj props =>
      Some ("{" +:+ join ","
              (omap (fun kv => match kv with
                               | (k, x) => match stringify x with
                                           | Some s => Some (quote k +:+ ":" +:+ s)
                                           | None => None
                                           end
                               end) props) +:+ "}")
  end.

(** A template literal prints [undefined] as the word. *)
Definition template (o : option string) : string := default "undefined" o.

(** [v < bound] and [v > bound] against a numeric bound of a schema. *)
Definition to_number (v : value) : number :=
  match v with
  | JNum n => n
  | _ => ToNumber v
  end.

Definition js_lt (v : value) (bound : Z) : bool := num_lt (to_number v) (num_of_Z bound).
Definition js_gt (v : value) (bound : Z) : bool := num_lt (num_of_Z bound) (to_number v).

End Values.

(** ** Schema validation *)

(** The rule set of one field of a schema; an absent rule is [None]
    ([required] absent reads as [false]).  The bounds of the registered schemas
    are integer literals. *)
Module Rules.
Record t := {
  type : option JsType;
  required : bool;
  minLength : option Z;
  maxLength : option Z;
  min : option Z;
  max : option Z;
  enum : option (list string);
}.
End Rules.

Definition Schema := list (string * Rules.t).

Definition rules (ty : JsType) (req : bool) (minLen maxLen lo hi : option Z)
    (values : option (list string)) : Rules.t :=
  {| Rules.type := Some ty; Rules.required := req;
     Rules.minLength := minLen; Rules.maxLength := maxLen;
     Rules.min := lo; Rules.max := hi; Rules.enum := values |}.

(** [const validationSchemas = { ... }] *)
Definition validationSchemas : list (string * Schema) :=
  [ ("image_generate",
      [ ("prompt", rules TyString true (Some 1) (Some 1000) None None None);
        ("size", rules TyString false None None None None
                   (Some ["256x256"; "512x512"; "1024x1024"]));
        ("n", rules TyNumber false None None (Some 1) (Some 4) None) ]);
    ("analyze_code",
      [ ("code", rules TyString true (Some 1) None None None None);
        ("language", rules TyString false None None None None None);
        ("analysis_type", rules TyString false None None None None
                            (Some ["review"; "explain"; "optimize"; "debug"])) ]);
    ("web_request",
      [ ("url", rules TyString true None None None None None);
        ("method", rules TyString false None None None None
                     (Some ["GET"; "POST"; "PUT"; "DELETE"; "PATCH"])) ]);
    ("ask_athena",
      [ ("prompt", rules TyString true (Some 1) (Some 2000) None None None) ]) ].

(** [validationSchemas[toolName]].  A name that is not an own property either
    is absent or resolves to a member of [Object.prototype], which has no
    enumerable entries: both leave the loop of [validateInput] without a
    field, so both read as [None] here. *)
Fixpoint lookup_schema (toolName : string) (reg : list (string * Schema)) : option Schema :=
  match reg with
  | [] => None
  | (name, schema) :: rest =>
      if String.eqb name toolName then Some schema else lookup_schema toolName rest
  end.

(** [rules.minLength && ...]: a bound that is absent or [0] is falsy. *)
Definition truthy_bound (bound : option Z) : option Z :=
  match bound with
  | Some 0 => None
  | _ => bound
  end.

Definition invalid {A} (message : string) : Completion A :=
  Abrupt (ThrowMcp {| mcp_code := InvalidParams; mcp_message := message |}).

Definition fail_if (violated : bool) (message : string) : Completion unit :=
  if violated then invalid message else Normal tt.

(** The [TypeError] of reading [length] from [null] or [undefined]. *)
Definition length_of_null : JsError :=
  {| err_code := None; err_status := None;
     err_message := "Cannot read properties of null (reading 'length')" |}.

Definition length_of_undefined : JsError :=
  {| err_code := None; err_status := None;
     err_message := "Cannot read properties of undefined (reading 'length')" |}.

Section Validation.
Context `{JsBuiltins}.

Local Abbreviation value := (jsval number).

(** [value.length < bound]: the length of a string or an array is compared
    as it is; another object is asked for its [length] property; a Number or
    a Boolean has none, and [undefined] is compared; [null] throws. *)
Definition length_lt (v : value) (bound : Z) : Completion bool :=
  match v with
  | JStr s => Normal (Z.of_nat (String.length s) <? bound)
  | JArr elems => Normal (Z.of_nat (List.length elems) <? bound)
  | JObj props => Normal (js_lt (get props "length") bound)
  | JBool _ | JNum _ => Normal (js_lt JUndefined bound)
  | JNull => Abrupt (ThrowError length_of_null)
  | JUndefined => Abrupt (ThrowError length_of_undefined)
  end.

Definition length_gt (v : value) (bound : Z) : Completion bool :=
  match v with
  | JStr s => Normal (bound <? Z.of_nat (String.length s))
  | JArr elems => Normal (bound <? Z.of_nat (List.length elems))
  | JObj props => Normal (js_gt (get props "length") bound)
  | JBool _ | JNum _ => Normal (js_gt JUndefined bound)
  | JNull => Abrupt (ThrowError length_of_null)
  | JUndefined => Abrupt (ThrowError length_of_undefined)
  end.

(** [rules.enum.includes(value)]: the members are strings. *)
Definition includes (members : list string) (v : value) : bool :=
  match v with
  | JStr s => existsb (String.eqb s) members
  | _ => false
  end.

(** The body of the loop of [validateInput] for one field. *)
Definition checkField (field : string) (r : Rules.t) (v : value) : Completion unit :=
  (fail_if (Rules.required r && nullish v) ("Missing required field: " +:+ field) ;?
   if is_undefined v then Normal tt else
     fail_if (bool_decide (Rules.type r = Some TyString)
              && negb (bool_decide (typeof v = TyString)))
             ("Field " +:+ field +:+ " must be a string") ;?
     fail_if (bool_decide (Rules.type r = Some TyNumber)
              && negb (bool_decide (typeof v = TyNumber)))
             ("Field " +:+ field +:+ " must be a number") ;?
     (match truthy_bound (Rules.minLength r) with
      | Some n => short <-? length_lt v n ;
                  fail_if short ("Field " +:+ field +:+ " must be at least "
                                 +:+ pretty n +:+ " characters")
      | None => Normal tt
      end) ;?
     (match truthy_bound (Rules.maxLength r) with
      | Some n => long <-? length_gt v n ;
                  fail_if long ("Field " +:+ field +:+ " must be at most "
                                +:+ pretty n +:+ " characters")
      | None => Normal tt
      end) ;?
     (match truthy_bound (Rules.min r) with
      | Some n => fail_if (js_lt v n) ("Field " +:+ field +:+ " must be at least " +:+ pretty n)
      | None => Normal tt
      end) ;?
     (match truthy_bound (Rules.max r) with
      | Some n => fail_if (js_gt v n) ("Field " +:+ field +:+ " must be at most " +:+ pretty n)
      | None => Normal tt
      end) ;?
     (match Rules.enum r with
      | Some members =>
          fail_if (negb (includes members v))
                  ("Field " +:+ field +:+ " must be one of: " +:+ join ", " members)
      | None => Normal tt
      end))%check.

(** [for (const [field, rules] of Object.entries(schema)) ...] *)
Fixpoint validateFields (schema : Schema) (args : list (string * value)) : Completion unit :=
  match schema with
  | [] => Normal tt
  | (field, r) :: rest =>
      (checkField field r (get args field) ;? validateFields rest args)%check
  end.

Definition validateInput (toolName : string) (args : list (string * value)) : Completion unit :=
  match lookup_schema toolName validationSchemas with
  | None => Normal tt
  | Some schema => validateFields schema args
  end.

End Validation.

(** ** The state of the process and its effects *)

(** [{ data, timestamp }].  [data] is what the handler returned: a string, or
    [None] for [undefined]. *)
Record CacheEntry := { data : option string; timestamp : Z }.

(** What a run does to its surroundings, in the order it happens. *)
Inductive Event :=
| EvCacheGet (key : string)        (* cache.get(key) *)
| EvCacheSet (key : string)        (* cache.set(key, ...) *)
| EvCacheSweep (cutoff : Z)        (* the loop that deletes old entries *)
| EvHandler (tool : string)        (* this.handle...(args) is entered *)
| EvAttempt (i : nat)              (* operation() is called, attempt i *)
| EvSleep (ms : Z).                (* setTimeout(resolve, ms) is awaited *)

Global Instance Event_eq_dec : EqDecision Event.
Proof. solve_decision. Defined.

(** The module-level [cache], the wall clock as the sequence of values that
    successive calls of [Date.now()] return, and the trace of events so far. *)
Record World := {
  cache : gmap string CacheEntry;
  clock : nat -> Z;
  ticks : nat;
  log : list Event;
}.

Definition M (A : Type) : Type := World -> Completion A * World.

Definition ret {A} (a : A) : M A := fun w => (Normal a, w).

Definition bind {A B} (m : M A) (k : A -> M B) : M B :=
  fun w => match m w with
           | (Normal a, w') => k a w'
           | (Abrupt t, w') => (Abrupt t, w')
           end.

Definition throw {A} (t : Thrown) : M A := fun w => (Abrupt t, w).

(** [try { m } catch (error) { handler error }] *)
Definition try_catch {A} (m : M A) (handler : Thrown -> M A) : M A :=
  fun w => match m w with
           | (Normal a, w') => (Normal a, w')
           | (Abrupt t, w') => handler t w'
           end.

Definition lift {A} (c : Completion A) : M A := fun w => (c, w).

Declare Scope eff_scope.
Delimit Scope eff_scope with eff.
Notation "x <- m ;; k" := (bind m (fun x => k))
  (at level 100, m at next level, right associativity) : eff_scope.
Notation "m ;; k" := (bind m (fun _ => k))
  (at level 100, right associativity) : eff_scope.

Definition emit (ev : Event) : M unit :=
  fun w => (Normal tt,
            {| cache := cache w; clock := clock w; ticks := ticks w; log := log w ++ [ev] |}).

(** [Date.now()] *)
Definition Date_now : M Z :=
  fun w => (Normal (clock w (ticks w)),
            {| cache := cache w; clock := clock w; ticks := S (ticks w); log := log w |}).

Definition with_cache (f : gmap string CacheEntry -> gmap string CacheEntry) : M unit :=
  fun w => (Normal tt,
            {| cache := f (cache w); clock := clock w; ticks := ticks w; log := log w |}).

Definition cache_get (key : string) : M (option CacheEntry) :=
  (emit (EvCacheGet key) ;; fun w => (Normal (cache w !! key), w))%eff.

Definition cache_set (key : string) (entry : CacheEntry) : M unit :=
  (emit (EvCacheSet key) ;; with_cache (insert key entry))%eff.

Definition cache_size : M nat := fun w => (Normal (size (cache w)), w).

(** ** Cache management *)

Definition CACHE_TTL : Z := 300000.
Definition MAX_RETRIES : nat := 3.
Definition RETRY_DELAY_BASE : Z := 1000.

Definition getCachedResponse (key : string) : M (option string) :=
  (cached <- cache_get key ;;
   match cached with
   | Some entry =>
       now <- Date_now ;;
       if now - timestamp entry <? CACHE_TTL then ret (data entry) else ret None
   | None => ret None
   end)%eff.

(** [for (const [k, v] of cache.entries()) if (v.timestamp < cutoff) cache.delete(k)] *)
Definition sweep (cutoff : Z) (c : gmap string CacheEntry) : gmap string CacheEntry :=
  filter (fun kv => ~ (timestamp (snd kv) < cutoff)) c.

Definition setCachedResponse (key : string) (result : option string) : M unit :=
  (now <- Date_now ;;
   cache_set key {| data := result; timestamp := now |} ;;
   entries <- cache_size ;;
   if (1000 <? entries)%nat then
     now' <- Date_now ;;
     let cutoff := now' - CACHE_TTL in
     emit (EvCacheSweep cutoff) ;;
     with_cache (sweep cutoff)
   else ret tt)%eff.

(** ** Retry logic with exponential backoff *)

(** How one call of [operation()] settles. *)
Inductive Outcome (A : Type) : Type :=
| Resolves (v : A)
| Rejects (t : Thrown).

Arguments Resolves {A} v.
Arguments Rejects {A} t.

(** [error.code === 'ENOTFOUND' || error.status === 401 || error.status === 403];
    the [code] of an [McpError] is a number and it has no [status]. *)
Definition non_retryable (t : Thrown) : bool :=
  match t with
  | ThrowMcp _ => false
  | ThrowError e =>
      bool_decide (err_code e = Some "ENOTFOUND")
      || bool_decide (err_status e = Some 401)
      || bool_decide (err_status e = Some 403)
  end.

(** The [for] loop of [withRetry] from index [i] on, with [remaining]
    iterations left before [i < maxRetries] fails.  [operation i] is how the
    call of attempt [i] settles.  Leaving the loop returns [undefined].  The
    delay is the number handed to [setTimeout]; [RETRY_DELAY_BASE *
    Math.pow(2, i)] is exact in double precision for every index an attempt
    budget reaches in practice (up to 1000). *)
Fixpoint retry_loop {A} (operation : nat -> Outcome A) (maxRetries remaining i : nat)
    : M (option A) :=
  match remaining with
  | O => ret None
  | S remaining' =>
      (emit (EvAttempt i) ;;
       match operation i with
       | Resolves v => ret (Some v)
       | Rejects error =>
           if (i =? maxRetries - 1)%nat then throw error
           else if non_retryable error then throw error
           else
             let delay := RETRY_DELAY_BASE * 2 ^ Z.of_nat i in
             emit (EvSleep delay) ;;
             retry_loop operation maxRetries remaining' (S i)
       end)%eff
  end.

Definition withRetry {A} (operation : nat -> Outcome A) (maxRetries : nat) : M (option A) :=
  retry_loop operation maxRetries maxRetries 0.

(** ** The tool handlers and the request handler *)

(** What [AthenaServer]'s constructor leaves in [this.openai]: a client, or
    [null]. *)
Record Server := { openai : bool }.

(** [{ content: [{ type: 'text', text }] }] *)
Record Response := { text : option string }.

Definition openai_missing : McpError :=
  {| mcp_code := InternalError;
     mcp_message := "OpenAI client not initialized. Please check your API key." |}.

(** [['get_system_stats', 'ask_athena'].includes(name)] *)
Definition cacheable (name : string) : bool :=
  existsb (String.eqb name) ["get_system_stats"; "ask_athena"].

(** The names of the [switch] that dispatches a call. *)
Definition tool_names : list string :=
  ["ask_athena"; "get_system_stats"; "analyze_code"; "generate_code";
   "image_generate"; "web_request"].

(** What the [catch] of the request handler throws for [error]. *)
Definition surface (error : Thrown) : McpError :=
  match error with
  | ThrowMcp e => e
  | ThrowError e =>
      {| mcp_code := InternalError;
         mcp_message := "Tool execution failed: " +:+ err_message e |}
  end.

Section Pipeline.
Context `{JsBuiltins}.

Local Abbreviation value := (jsval number).

(** [request.params]: [{ name, arguments }], for a call that comes with an
    argument map.  A call that comes without one is a [Call], further down. *)
Record Request := { params_name : string; params_arguments : list (string * value) }.

(** The services behind the handlers (the OpenAI API, the HTTP client, the
    operating system): how attempt [i] of the operation that a handler passes
    to [withRetry] settles, for a tool name and its arguments.  No handler and
    no operation refers to [cache]. *)
Definition External := string -> list (string * value) -> nat -> Outcome string.

Variable this : Server.
Variable ext : External.

(** The handlers that need the OpenAI client. *)
Definition openai_handler (tool : string) (args : list (string * value)) : M (option string) :=
  (emit (EvHandler tool) ;;
   if openai this then withRetry (ext tool args) MAX_RETRIES
   else throw (ThrowMcp openai_missing))%eff.

(** The handlers that do not. *)
Definition plain_handler (tool : string) (args : list (string * value)) : M (option string) :=
  (emit (EvHandler tool) ;; withRetry (ext tool args) MAX_RETRIES)%eff.

Definition handleAskAthena := openai_handler "ask_athena".
Definition handleGetSystemStats := plain_handler "get_system_stats".
Definition handleAnalyzeCode := openai_handler "analyze_code".
Definition handleGenerateCode := openai_handler "generate_code".
Definition handleImageGenerate := openai_handler "image_generate".
Definition handleWebRequest := plain_handler "web_request".

(** [switch (name) { ... }] *)
Definition dispatch (name : string) (args : list (string * value)) : M (option string) :=
  if String.eqb name "ask_athena" then handleAskAthena args
  else if String.eqb name "get_system_stats" then handleGetSystemStats args
  else if String.eqb name "analyze_code" then handleAnalyzeCode args
  else if String.eqb name "generate_code" then handleGenerateCode args
  else if String.eqb name "image_generate" then handleImageGenerate args
  else if String.eqb name "web_request" then handleWebRequest args
  else throw (ThrowMcp {| mcp_code := MethodNotFound;
                          mcp_message := "Unknown tool: " +:+ name |}).

(** [`${name}:${JSON.stringify(args)}`] *)
Definition cacheKey (name : string) (args : list (string * value)) : string :=
  name +:+ ":" +:+ template (stringify (JObj args)).

(** [cached && [...].includes(name)]: the payload to serve, if any.  An empty
    string is falsy, like [null] and [undefined]. *)
Definition served (cached : option string) (name : string) : option string :=
  match cached with
  | Some payload => if negb (String.eqb payload "") && cacheable name then Some payload else None
  | None => None
  end.

(** The body of the [try] block of the request handler. *)
Definition tryBlock (name : string) (args : list (string * value)) : M Response :=
  (lift (validateInput name args) ;;
   let key := cacheKey name args in
   cached <- getCachedResponse key ;;
   match served cached name with
   | Some payload => ret {| text := Some ("[CACHED] " +:+ payload) |}
   | None =>
       result <- dispatch name args ;;
       (if cacheable name then setCachedResponse key result else ret tt) ;;
       ret {| text := result |}
   end)%eff.

(** The handler of [CallToolRequestSchema]. *)
Definition callTool (request : Request) : M Response :=
  let name := params_name request in
  let args := params_arguments request in
  try_catch (tryBlock name args) (fun error => throw (ThrowMcp (surface error))).

End Pipeline.

(** * Notions for the statements *)

(** ** Worlds and traces *)

(** The value that the next call of [Date.now()] returns. *)
Definition now (w : World) : Z := clock w (ticks w).

(** What a lookup of [key] finds in the world [w]: the data of an entry that
    is younger than the TTL at the next reading of the clock. *)
Definition fresh_data (w : World) (key : string) : option string :=
  match cache w !! key with
  | Some entry => if now w - timestamp entry <? CACHE_TTL then data entry else None
  | None => None
  end.

(** The cache right after [cache.set] in [setCachedResponse]: the entry is
    written under the first reading of the clock. *)
Definition stored (key : string) (result : option string) (w : World) : gmap string CacheEntry :=
  <[key := {| data := result; timestamp := now w |}]> (cache w).

(** The world after further events. *)
Definition after (w : World) (evs : list Event) : World :=
  {| cache := cache w; clock := clock w; ticks := ticks w; log := log w ++ evs |}.

(** The events of [k] failed attempts from index [i] on, each followed by its
    backoff delay. *)
Fixpoint backoff_events (i k : nat) : list Event :=
  match k with
  | O => []
  | S k' => EvAttempt i :: EvSleep (RETRY_DELAY_BASE * 2 ^ Z.of_nat i) :: backoff_events (S i) k'
  end.

Definition is_attempt (ev : Event) : bool :=
  match ev with EvAttempt _ => true | _ => false end.

(** The number of calls of [operation()] among some events. *)
Definition attempts (evs : list Event) : nat := length (List.filter is_attempt evs).

(** The events of the retry executor. *)
Definition retry_event (ev : Event) : bool :=
  match ev with EvAttempt _ | EvSleep _ => true | _ => false end.

(** The events of a handler and of the retry executor inside it. *)
Definition handler_event (ev : Event) : bool :=
  match ev with EvHandler _ | EvAttempt _ | EvSleep _ => true | _ => false end.

Definition is_handler (ev : Event) : bool :=
  match ev with EvHandler _ => true | _ => false end.

(** The number of times a tool handler is entered among some events. *)
Definition handler_runs (evs : list Event) : nat := length (List.filter is_handler evs).

(** The keys under which some events read or write the cache. *)
Definition cache_keys (evs : list Event) : list string :=
  flat_map (fun ev => match ev with
                      | EvCacheGet key | EvCacheSet key => [key]
                      | _ => []
                      end) evs.

(** An attempt that fails with an error that [withRetry] retries. *)
Definition fails_retryably {A} (o : Outcome A) : Prop :=
  match o with
  | Rejects t => non_retryable t = false
  | Resolves _ => False
  end.

(** ** Argument maps *)

Section ArgumentMaps.
Context `{JsBuiltins}.

(** Two argument maps that bind every field to the same value. *)
Definition same_bindings (args args' : list (string * jsval number)) : Prop :=
  forall field, get args field = get args' field.

(** Two argument maps that list the same fields in the same order, with equal
    values. *)
Definition same_entries (args args' : list (string * jsval number)) : Prop :=
  Forall2 (fun p q => fst p = fst q /\ snd p = snd q) args args'.

End ArgumentMaps.

(** ** The validation rules in the words of the specification *)

Section ValidationRules.
Context `{JsBuiltins}.

Local Abbreviation value := (jsval number).

(** Rule 1: a field is absent when it is [undefined] or [null]. *)
Definition absent (v : value) : bool :=
  match v with
  | JUndefined | JNull => true
  | _ => false
  end.

(** In the words of the specification a value is present when its field is
    not absent. *)
Definition present (v : value) : bool := negb (absent v).

(** The amended reading of rules 2 to 8: they look at every value but
    [undefined], [null] included. *)
Definition given (v : value) : bool :=
  match v with
  | JUndefined => false
  | _ => true
  end.

Definition is_string (v : value) : bool :=
  match v with JStr _ => true | _ => false end.

Definition is_number (v : value) : bool :=
  match v with JNum _ => true | _ => false end.

Definition shorter_than (v : value) (n : Z) : bool :=
  match v with JStr s => Z.of_nat (String.length s) <? n | _ => false end.

Definition longer_than (v : value) (n : Z) : bool :=
  match v with JStr s => n <? Z.of_nat (String.length s) | _ => false end.

Definition below (v : value) (n : Z) : bool :=
  match v with JNum x => num_lt x (num_of_Z n) | _ => false end.

Definition above (v : value) (n : Z) : bool :=
  match v with JNum x => num_lt (num_of_Z n) x | _ => false end.

(** The value is one of the values of the enumeration. *)
Definition member (members : list string) (v : value) : bool :=
  match v with
  | JStr s => bool_decide (s ∈ members)
  | _ => false
  end.

(** A rule that applies when its bound is set. *)
Definition bound_rule (bound : option Z) (violated : Z -> bool) (message : Z -> string)
    : list (bool * string) :=
  match bound with
  | Some n => [(violated n, message n)]
  | None => []
  end.

(** The eight rules of a field in the listed order, each with whether the
    value violates it and the message it fails with.  [looks_at] tells which
    values the rules 2 to 8 look at. *)
Definition rule_list (looks_at : value -> bool) (field : string) (r : Rules.t) (v : value)
    : list (bool * string) :=
  [ (Rules.required r && absent v, "Missing required field: " +:+ field);
    (looks_at v && bool_decide (Rules.type r = Some TyString) && negb (is_string v),
     "Field " +:+ field +:+ " must be a string");
    (looks_at v && bool_decide (Rules.type r = Some TyNumber) && negb (is_number v),
     "Field " +:+ field +:+ " must be a number") ]
  ++ bound_rule (Rules.minLength r) (fun n => looks_at v && shorter_than v n)
       (fun n => "Field " +:+ field +:+ " must be at least " +:+ pretty n +:+ " characters")
  ++ bound_rule (Rules.maxLength r) (fun n => looks_at v && longer_than v n)
       (fun n => "Field " +:+ field +:+ " must be at most " +:+ pretty n +:+ " characters")
  ++ bound_rule (Rules.min r) (fun n => looks_at v && below v n)
       (fun n => "Field " +:+ field +:+ " must be at least " +:+ pretty n)
  ++ bound_rule (Rules.max r) (fun n => looks_at v && above v n)
       (fun n => "Field " +:+ field +:+ " must be at most " +:+ pretty n)
  ++ match Rules.enum r with
     | Some members =>
         [(looks_at v && negb (member members v),
           "Field " +:+ field +:+ " must be one of: " +:+ join ", " members)]
     | None => []
     end.

(** The rules as the specification words them: rules 2 to 8 are about present
    values. *)
Definition spec_rules (field : string) (r : Rules.t) (v : value) : list (bool * string) :=
  rule_list present field r v.

(** The rules as amended: rules 2 to 8 are about given values. *)
Definition amended_rules (field : string) (r : Rules.t) (v : value) : list (bool * string) :=
  rule_list given field r v.

Fixpoint first_violation (checks : list (bool * string)) : option string :=
  match checks with
  | [] => None
  | (violated, message) :: rest => if violated then Some message else first_violation rest
  end.

(** [fails(InvalidParams, message)] *)
Definition rejected (message : string) : Completion unit :=
  Abrupt (ThrowMcp {| mcp_code := InvalidParams; mcp_message := message |}).

Definition verdict (violation : option string) : Completion unit :=
  match violation with
  | Some message => rejected message
  | None => Normal tt
  end.

(** The rules of the fields of a schema, in the order of the schema. *)
Definition rules_of (looks_at : value -> bool) (schema : Schema) (args : list (string * value))
    : list (bool * string) :=
  concat (map (fun fr => rule_list looks_at (fst fr) (snd fr) (get args (fst fr))) schema).

(** Validation fails on the first violated rule of the first field that has
    one, and passes when there is none. *)
Definition spec_validateFields (schema : Schema) (args : list (string * value))
    : Completion unit :=
  verdict (first_violation (rules_of present schema args)).

Definition amended_validateFields (schema : Schema) (args : list (string * value))
    : Completion unit :=
  verdict (first_violation (rules_of given schema args)).

Definition spec_validateInput (toolName : string) (args : list (string * value))
    : Completion unit :=
  match lookup_schema toolName validationSchemas with
  | None => Normal tt
  | Some schema => spec_validateFields schema args
  end.

Definition amended_validateInput (toolName : string) (args : list (string * value))
    : Completion unit :=
  match lookup_schema toolName validationSchemas with
  | None => Normal tt
  | Some schema => amended_validateFields schema args
  end.

(** No declared field that is not required is bound to [null]. *)
Definition no_optional_null (schema : Schema) (args : list (string * value)) : Prop :=
  forall field r,
    In (field, r) schema -> get args field = JNull -> Rules.required r = true.

End ValidationRules.

(** The shape of the registered rule sets: no bound is [0], length bounds go
    with the type string and numeric bounds with the type number. *)
Definition nonzero (bound : option Z) : bool :=
  match bound with
  | Some 0 => false
  | _ => true
  end.

Definition unset (bound : option Z) : bool :=
  match bound with
  | Some _ => false
  | None => true
  end.

Definition well_typed_rules (r : Rules.t) : bool :=
  nonzero (Rules.minLength r) && nonzero (Rules.maxLength r)
  && nonzero (Rules.min r) && nonzero (Rules.max r)
  && (unset (Rules.minLength r) && unset (Rules.maxLength r)
      || bool_decide (Rules.type r = Some TyString))
  && (unset (Rules.min r) && unset (Rules.max r)
      || bool_decide (Rules.type r = Some TyNumber)).

Definition well_typed_schema (schema : Schema) : bool :=
  forallb (fun fr => well_typed_rules (snd fr)) schema.

(** A rule set with the bound [min: 0], which no registered schema has. *)
Definition at_least_zero : Rules.t :=
  rules TyNumber false None None (Some 0) None None.

(** * Inputs for the executions *)

(** A runtime whose Numbers are the integers and [NaN] ([None]).  Its
    [ToNumber] answers [NaN] on strings, arrays and objects, as the language
    does for those that do not spell a number; no execution below coerces
    one. *)
Module IntegerRuntime.

Definition num : Type := option Z.

Definition lt (x y : num) : bool :=
  match x, y with
  | Some a, Some b => a <? b
  | _, _ => false
  end.

Definition json (x : num) : string :=
  match x with
  | Some a => pretty a
  | None => "null"
  end.

Definition coerce (v : jsval num) : num :=
  match v with
  | JNull => Some 0
  | JBool b => Some (if b then 1 else 0)
  | JNum n => n
  | _ => None
  end.

Definition builtins : JsBuiltins :=
  {| number := num; num_of_Z := Some; num_lt := lt; num_json := json; ToNumber := coerce |}.

End IntegerRuntime.

(** An empty cache under a clock that advances by one millisecond at each
    reading. *)
Definition empty_world : World :=
  {| cache := ∅; clock := fun n => Z.of_nat n; ticks := 0; log := [] |}.

(** A cache of 1000 entries, all written at time 0, when the clock shows
    300000. *)
Definition old_keys : list string := map (fun i => pretty (Z.of_nat i)) (seq 0 1000).

Definition full_cache : gmap string CacheEntry :=
  list_to_map (map (fun k => (k, {| data := Some "old"; timestamp := 0 |})) old_keys).

Definition full_world : World :=
  {| cache := full_cache; clock := fun _ => 300000; ticks := 0; log := [] |}.

(** Errors and operations. *)
Definition server_error : JsError :=
  {| err_code := None; err_status := Some 500; err_message := "boom" |}.

Definition unauthorized : JsError :=
  {| err_code := None; err_status := Some 401; err_message := "Unauthorized" |}.

(** Fails twice, then succeeds. *)
Definition flaky : nat -> Outcome string :=
  fun i => if (i <? 2)%nat then Rejects (ThrowError server_error) else Resolves "ok".

Definition failing : nat -> Outcome string :=
  fun _ => Rejects (ThrowError server_error).

Definition denied : nat -> Outcome string :=
  fun _ => Rejects (ThrowError unauthorized).

(** A server error first, then the credentials are rejected. *)
Definition slow_denial : nat -> Outcome string :=
  fun i => if (i <? 1)%nat then Rejects (ThrowError server_error)
           else Rejects (ThrowError unauthorized).

(** Argument maps for [image_generate]. *)
Definition image_zero : list (string * jsval IntegerRuntime.num) :=
  [("prompt", JStr "cat"); ("n", JNum (Some 0))].

Definition image_five : list (string * jsval IntegerRuntime.num) :=
  [("prompt", JStr "cat"); ("n", JNum (Some 5))].





(** [null] for the field [language] of [analyze_code], which is not required. *)
Definition code_null_language : list (string * jsval IntegerRuntime.num) :=
  [("code", JStr "x = 1"); ("language", JNull)].

(** An [n] below its [min], and no [prompt]. *)
Definition image_only_zero : list (string * jsval IntegerRuntime.num) :=
  [("n", JNum (Some 0))].

(** Argument maps for [ask_athena]: the same bindings in two orders. *)
Definition athena_args : list (string * jsval IntegerRuntime.num) :=
  [("prompt", JStr "hi"); ("context", JStr "c")].

Definition athena_args_reordered : list (string * jsval IntegerRuntime.num) :=
  [("context", JStr "c"); ("prompt", JStr "hi")].

Definition athena_key : string := @cacheKey IntegerRuntime.builtins "ask_athena" athena_args.

(** Requests. *)
Definition ask_hi : @Request IntegerRuntime.builtins :=
  @Build_Request IntegerRuntime.builtins "ask_athena" athena_args.

Definition unknown_call : @Request IntegerRuntime.builtins :=
  @Build_Request IntegerRuntime.builtins "nope" [].

(** [image_generate] without its [prompt]. *)
Definition invalid_call : @Request IntegerRuntime.builtins :=
  @Build_Request IntegerRuntime.builtins "image_generate" [].

(** A server with its OpenAI client, and services: a model that answers with
    an empty completion, one that answers "ok", and one that rejects the
    credentials. *)
Definition ready : Server := {| openai := true |}.

Definition answers_empty : @External IntegerRuntime.builtins :=
  fun _ _ _ => Resolves "".

Definition answers_ok : @External IntegerRuntime.builtins :=
  fun _ _ _ => Resolves "ok".

Definition rejects_key : @External IntegerRuntime.builtins :=
  fun _ _ => denied.

(** * Further notions *)

(** The time spent in backoff delays among some events, in milliseconds. *)
Definition total_sleep (evs : list Event) : Z :=
  fold_right (fun ev acc => match ev with EvSleep ms => ms + acc | _ => acc end) 0 evs.

(** Argument maps for the executions of the validator. *)
Definition athena_with_extras : list (string * jsval IntegerRuntime.num) :=
  [("trace", JBool true); ("context", JStr "c"); ("prompt", JStr "hi")].

(** ** Tools and keys *)

(** The tools whose handler starts with the test of [this.openai]. *)
Definition uses_openai (name : string) : bool :=
  existsb (String.eqb name) ["ask_athena"; "analyze_code"; "generate_code"; "image_generate"].

(** A key that the request handler makes for a tool whose results it caches. *)
Definition cacheable_key (key : string) : Prop :=
  exists name rest, cacheable name = true /\ key = name +:+ ":" +:+ rest.

(** A server whose constructor found no API key. *)
Definition no_client : Server := {| openai := false |}.

(** The cache holds an answer to [ask_hi] that was stored at time 0; the clock
    shows the TTL, and one millisecond less. *)
Definition stale_world : World :=
  {| cache := {[ athena_key := {| data := Some "old"; timestamp := 0 |} ]};
     clock := fun n => 300000 + Z.of_nat n; ticks := 0; log := [] |}.

Definition warm_world : World :=
  {| cache := {[ athena_key := {| data := Some "old"; timestamp := 0 |} ]};
     clock := fun n => 299999 + Z.of_nat n; ticks := 0; log := [] |}.

Definition review_call : @Request IntegerRuntime.builtins :=
  @Build_Request IntegerRuntime.builtins "analyze_code" [("code", JStr "x = 1")].

(** The cache holds an entry under the key of [review_call], whose tool is not
    cached. *)
Definition review_key : string :=
  @cacheKey IntegerRuntime.builtins "analyze_code" [("code", JStr "x = 1")].

Definition review_world : World :=
  {| cache := {[ review_key := {| data := Some "old"; timestamp := 0 |} ]};
     clock := fun n => Z.of_nat n; ticks := 0; log := [] |}.

(** ** Reading keys back *)

(** An argument map whose values are all strings, and the text of one of its
    properties in [JSON.stringify]'s output. *)
Definition string_fields {num} (l : list (string * string)) : list (string * jsval num) :=
  map (fun kv => (fst kv, JStr (snd kv))) l.

Definition entry_text (kv : string * string) : string :=
  quote (fst kv) +:+ ":" +:+ quote (snd kv).

(** The value of a hexadecimal digit in lower case. *)
Definition hex_value (c : ascii) : N :=
  let n := N_of_ascii c in
  if (n <? 58)%N then (n - 48)%N else (n - 87)%N.

(** The first code unit of the inside of a JSON string literal, and the text
    after it; [None] at the closing quote. *)
Definition read_unit (s : string) : option (ascii * string) :=
  match s with
  | String c rest =>
      if Ascii.eqb c dquote then None
      else if Ascii.eqb c backslash then
        match rest with
        | String e rest' =>
            if Ascii.eqb e "u" then
              match rest' with
              | String _ (String _ (String h (String l rest''))) =>
                  Some (ascii_of_N (16 * hex_value h + hex_value l), rest'')
              | _ => None
              end
            else if Ascii.eqb e "b" then Some (ascii_of_N 8, rest')
            else if Ascii.eqb e "f" then Some (ascii_of_N 12, rest')
            else if Ascii.eqb e "n" then Some (ascii_of_N 10, rest')
            else if Ascii.eqb e "r" then Some (ascii_of_N 13, rest')
            else if Ascii.eqb e "t" then Some (ascii_of_N 9, rest')
            else Some (e, rest')
        | EmptyString => None
        end
      else Some (c, rest)
  | EmptyString => None
  end.

(** A name without a colon. *)
Fixpoint no_colon (name : string) : bool :=
  match name with
  | EmptyString => true
  | String c rest => negb (Ascii.eqb c ":") && no_colon rest
  end.

(** ** Calls without arguments *)

(** The [TypeError]s of a call that comes without [arguments], in the words
    of V8: the one of [args[field]] in [validateInput], and the one of the
    destructuring of [args] at the head of a handler. *)
Definition read_of_undefined (field : string) : JsError :=
  {| err_code := None; err_status := None;
     err_message := "Cannot read properties of undefined (reading '" +:+ field +:+ "')" |}.

Definition destructure_of_undefined (property : string) : JsError :=
  {| err_code := None; err_status := None;
     err_message := "Cannot destructure property '" +:+ property
                    +:+ "' of 'args' as it is undefined." |}.

(** The first property that the handler of a tool takes from [args]. *)
Definition first_property (name : string) : option string :=
  if String.eqb name "ask_athena" then Some "prompt"
  else if String.eqb name "get_system_stats" then Some "detailed"
  else if String.eqb name "analyze_code" then Some "code"
  else if String.eqb name "generate_code" then Some "requirements"
  else if String.eqb name "image_generate" then Some "prompt"
  else if String.eqb name "web_request" then Some "url"
  else None.

Section Calls.
Context `{JsBuiltins}.

Local Abbreviation value := (jsval number).

(** [request.params] of any call: [arguments] may be missing, and
    [const { name, arguments: args } = request.params] leaves [args]
    [undefined] then. *)
Record Call := { call_name : string; call_arguments : option (list (string * value)) }.

Variable this : Server.
Variable ext : External.

(** [validateInput(name, args)]: without a schema nothing is read from
    [args]; with one, the first iteration of the loop reads [args[field]]. *)
Definition validateCall (toolName : string) (args : option (list (string * value)))
    : Completion unit :=
  match args with
  | Some props => validateInput toolName props
  | None =>
      match lookup_schema toolName validationSchemas with
      | Some ((field, _) :: _) => Abrupt (ThrowError (read_of_undefined field))
      | _ => Normal tt
      end
  end.

(** [`${name}:${JSON.stringify(args)}`] *)
Definition callKey (name : string) (args : option (list (string * value))) : string :=
  match args with
  | Some props => cacheKey name props
  | None => name +:+ ":" +:+ template (stringify (JUndefined : value))
  end.

(** [switch (name) { ... }]: every handler starts by destructuring [args]. *)
Definition dispatchCall (name : string) (args : option (list (string * value)))
    : M (option string) :=
  match args with
  | Some props => dispatch this ext name props
  | None =>
      match first_property name with
      | Some property =>
          (emit (EvHandler name) ;;
           throw (ThrowError (destructure_of_undefined property)))%eff
      | None => throw (ThrowMcp {| mcp_code := MethodNotFound;
                                   mcp_message := "Unknown tool: " +:+ name |})
      end
  end.

(** The body of the [try] block of the request handler. *)
Definition tryCall (name : string) (args : option (list (string * value))) : M Response :=
  (lift (validateCall name args) ;;
   let key := callKey name args in
   cached <- getCachedResponse key ;;
   match served cached name with
   | Some payload => ret {| text := Some ("[CACHED] " +:+ payload) |}
   | None =>
       result <- dispatchCall name args ;;
       (if cacheable name then setCachedResponse key result else ret tt) ;;
       ret {| text := result |}
   end)%eff.

(** The handler of [CallToolRequestSchema], for any call. *)
Definition handleCall (call : Call) : M Response :=
  try_catch (tryCall (call_name call) (call_arguments call))
            (fun error => throw (ThrowMcp (surface error))).

End Calls.

(** Calls without arguments. *)
Definition ask_without_arguments : @Call IntegerRuntime.builtins :=
  @Build_Call IntegerRuntime.builtins "ask_athena" None.

Definition generate_without_arguments : @Call IntegerRuntime.builtins :=
  @Build_Call IntegerRuntime.builtins "generate_code" None.

Definition ask_hi_call : @Call IntegerRuntime.builtins :=
  @Build_Call IntegerRuntime.builtins "ask_athena" (Some athena_args).

(** * Properties *)

(** ** The response cache *)

Lemma getCachedResponse_result key w :
  fst (getCachedResponse key w) =
  Normal (fresh_data w key).
Proof.
  unfold getCachedResponse, cache_get, bind, emit, Date_now, ret, fresh_data, now; simpl.
  destruct (cache w !! key) as [entry|]; simpl; [|reflexivity].
  destruct (clock w (ticks w) - timestamp entry <? CACHE_TTL); reflexivity.
Qed.

Lemma getCachedResponse_world key w :
  let w' := snd (getCachedResponse key w) in
  cache w' = cache w /\ clock w' = clock w /\ log w' = log w ++ [EvCacheGet key].
Proof.
  unfold getCachedResponse, cache_get, bind, emit, Date_now, ret; simpl.
  destruct (cache w !! key) as [entry|]; simpl; [|auto].
  destruct (clock w (ticks w) - timestamp entry <? CACHE_TTL); simpl; auto.
Qed.

(** A lookup returns a payload exactly when the key has an entry younger than
    the TTL that holds it. *)
Lemma getCachedResponse_fresh_iff key w payload :
  fst (getCachedResponse key w) = Normal (Some payload) <->
  exists entry, cache w !! key = Some entry
                /\ now w - timestamp entry < CACHE_TTL
                /\ data entry = Some payload.
Proof.
  rewrite getCachedResponse_result. unfold fresh_data. split.
  - destruct (cache w !! key) as [entry|]; [|discriminate].
    destruct (now w - timestamp entry <? CACHE_TTL) eqn:Hage; [|discriminate].
    intros [= Hdata]. exists entry. apply Z.ltb_lt in Hage. auto.
  - intros (entry & -> & Hage & Hdata). apply Z.ltb_lt in Hage. rewrite Hage. congruence.
Qed.

(** With no entry, or with one whose age has reached the TTL, it returns
    [null]. *)
Lemma getCachedResponse_stale key w :
  (forall entry, cache w !! key = Some entry -> CACHE_TTL <= now w - timestamp entry) ->
  fst (getCachedResponse key w) = Normal None.
Proof.
  intros Hstale. rewrite getCachedResponse_result. unfold fresh_data.
  destruct (cache w !! key) as [entry|]; [|reflexivity].
  specialize (Hstale entry eq_refl). apply Z.ltb_ge in Hstale. rewrite Hstale. reflexivity.
Qed.

Lemma sweep_lookup cutoff (c : gmap string CacheEntry) k entry :
  sweep cutoff c !! k = Some entry <-> c !! k = Some entry /\ cutoff <= timestamp entry.
Proof.
  unfold sweep. rewrite map_lookup_filter_Some. simpl. split; intros [? ?]; split; auto; lia.
Qed.

(** The sweep runs under the second reading, when more than 1000 entries are
    held. *)
Lemma setCachedResponse_cache key result w :
  cache (snd (setCachedResponse key result w)) =
  if (1000 <? size (stored key result w))%nat
  then sweep (clock w (S (ticks w)) - CACHE_TTL) (stored key result w)
  else stored key result w.
Proof.
  unfold setCachedResponse, cache_set, cache_size, with_cache, bind, emit, Date_now, ret,
    stored, now.
  cbn [fst snd cache clock ticks log].
  destruct (1000 <? size _)%nat; reflexivity.
Qed.

Lemma setCachedResponse_normal key result w :
  fst (setCachedResponse key result w) = Normal tt.
Proof.
  unfold setCachedResponse, cache_set, cache_size, with_cache, bind, emit, Date_now, ret.
  cbn [fst snd cache clock ticks log].
  destruct (1000 <? size _)%nat; reflexivity.
Qed.

(** What the sweep removes: the entries older than the TTL, and only them. An
    entry whose age equals the TTL stays. *)
Lemma setCachedResponse_sweep key result w k entry :
  (1000 < size (stored key result w))%nat ->
  (cache (snd (setCachedResponse key result w)) !! k = Some entry <->
   stored key result w !! k = Some entry
   /\ clock w (S (ticks w)) - timestamp entry <= CACHE_TTL).
Proof.
  intros Hsize. rewrite setCachedResponse_cache.
  apply Nat.ltb_lt in Hsize. rewrite Hsize, sweep_lookup.
  split; intros [? ?]; split; auto; lia.
Qed.

(** C5, at an input where the code departs from it: a store that brings the
    cache to 1001 entries runs the sweep, and the sweep keeps an entry whose
    age is exactly the TTL, although a lookup of that entry finds it stale. *)
Theorem sweep_keeps_entry_aged_ttl :
  let w' := snd (setCachedResponse "fresh" (Some "x") full_world) in
  log w' = [EvCacheSet "fresh"; EvCacheSweep 0]
  /\ cache w' !! "7" = Some {| data := Some "old"; timestamp := 0 |}
  /\ now w' - 0 = CACHE_TTL
  /\ fst (getCachedResponse "7" w') = Normal None
  /\ size (cache w') = 1001%nat.
Proof. vm_compute. repeat split; reflexivity. Qed.

(** ** The retry executor *)

Lemma after_nil w : after w [] = w.
Proof. destruct w; unfold after; simpl. rewrite app_nil_r. reflexivity. Qed.

Lemma after_after w evs evs' : after (after w evs) evs' = after w (evs ++ evs').
Proof. unfold after; simpl. rewrite app_assoc. reflexivity. Qed.

Lemma emit_after ev w : emit ev w = (Normal tt, after w [ev]).
Proof. reflexivity. Qed.

Lemma backoff_events_snoc i k :
  backoff_events i (S k) =
  backoff_events i k
  ++ [EvAttempt (i + k); EvSleep (RETRY_DELAY_BASE * 2 ^ Z.of_nat (i + k))].
Proof.
  revert i. induction k as [|k IH]; intros i.
  - simpl. rewrite Nat.add_0_r. reflexivity.
  - change (backoff_events i (S (S k)))
      with (EvAttempt i :: EvSleep (RETRY_DELAY_BASE * 2 ^ Z.of_nat i)
            :: backoff_events (S i) (S k)).
    rewrite IH. simpl. replace (S (i + k)) with (i + S k)%nat by lia. reflexivity.
Qed.

Lemma attempts_app evs evs' : attempts (evs ++ evs') = (attempts evs + attempts evs')%nat.
Proof. unfold attempts. rewrite List.filter_app, length_app. reflexivity. Qed.

Lemma attempts_backoff i k : attempts (backoff_events i k) = k.
Proof.
  revert i. induction k as [|k IH]; intros i; [reflexivity|].
  simpl. unfold attempts in *. simpl. rewrite IH. reflexivity.
Qed.

(** One iteration of the loop, by the way the attempt settles. *)
Lemma retry_loop_step {A} (operation : nat -> Outcome A) maxRetries remaining i w :
  retry_loop operation maxRetries (S remaining) i w =
  match operation i with
  | Resolves v => (Normal (Some v), after w [EvAttempt i])
  | Rejects error =>
      if (i =? maxRetries - 1)%nat || non_retryable error
      then (Abrupt error, after w [EvAttempt i])
      else retry_loop operation maxRetries remaining (S i)
             (after w [EvAttempt i; EvSleep (RETRY_DELAY_BASE * 2 ^ Z.of_nat i)])
  end.
Proof.
  simpl. unfold bind at 1. rewrite emit_after.
  destruct (operation i) as [v|error]; [reflexivity|].
  destruct (i =? maxRetries - 1)%nat; [reflexivity|]. simpl.
  destruct (non_retryable error); [reflexivity|].
  unfold bind. rewrite emit_after, after_after. reflexivity.
Qed.

(** [k] retryable failures, none of them at the last index, take the loop [k]
    iterations further. *)
Lemma retry_loop_skip {A} (operation : nat -> Outcome A) maxRetries k :
  forall remaining i w,
    (i + remaining = maxRetries)%nat ->
    (k < remaining)%nat ->
    (forall j, (i <= j < i + k)%nat -> fails_retryably (operation j)) ->
    retry_loop operation maxRetries remaining i w =
    retry_loop operation maxRetries (remaining - k) (i + k) (after w (backoff_events i k)).
Proof.
  induction k as [|k IH]; intros remaining i w Hsum Hlt Hfail.
  - simpl. rewrite Nat.sub_0_r, Nat.add_0_r, after_nil. reflexivity.
  - destruct remaining as [|remaining]; [lia|].
    rewrite retry_loop_step.
    pose proof (Hfail i ltac:(lia)) as Hi. unfold fails_retryably in Hi.
    destruct (operation i) as [v|error]; [contradiction|].
    rewrite Hi, orb_false_r.
    assert ((i =? maxRetries - 1)%nat = false) as -> by (apply Nat.eqb_neq; lia).
    rewrite (IH remaining (S i)) by (try lia; intros j Hj; apply Hfail; lia).
    rewrite after_after. simpl.
    replace (i + S k)%nat with (S (i + k))%nat by lia. reflexivity.
Qed.

(** The loop only calls the operation and sleeps, and it calls the operation
    at most once for each iteration that is left. *)
Lemma retry_loop_events {A} (operation : nat -> Outcome A) maxRetries remaining :
  forall i w,
    exists evs, snd (retry_loop operation maxRetries remaining i w) = after w evs
                /\ (attempts evs <= remaining)%nat
                /\ forallb retry_event evs = true.
Proof.
  induction remaining as [|remaining IH]; intros i w.
  - exists []. simpl. rewrite after_nil. auto.
  - rewrite retry_loop_step.
    destruct (operation i) as [v|error].
    + exists [EvAttempt i]. simpl. repeat split; auto. unfold attempts; simpl; lia.
    + destruct ((i =? maxRetries - 1)%nat || non_retryable error).
      * exists [EvAttempt i]. simpl. repeat split; auto. unfold attempts; simpl; lia.
      * destruct (IH (S i) (after w [EvAttempt i; EvSleep (RETRY_DELAY_BASE * 2 ^ Z.of_nat i)]))
          as (evs & Hw & Hn & Hall).
        exists ([EvAttempt i; EvSleep (RETRY_DELAY_BASE * 2 ^ Z.of_nat i)] ++ evs).
        rewrite Hw, after_after. repeat split; auto.
        rewrite attempts_app. unfold attempts at 1. simpl. lia.
Qed.

(** An error that the loop throws is the error of one of the attempts. *)
Lemma retry_loop_throws {A} (operation : nat -> Outcome A) maxRetries remaining :
  forall i w t,
    fst (retry_loop operation maxRetries remaining i w) = Abrupt t ->
    exists j, operation j = Rejects t.
Proof.
  induction remaining as [|remaining IH]; intros i w t.
  - simpl. discriminate.
  - rewrite retry_loop_step.
    destruct (operation i) as [v|error] eqn:Hop; [discriminate|].
    destruct ((i =? maxRetries - 1)%nat || non_retryable error).
    + simpl. intros [= <-]. eauto.
    + apply IH.
Qed.

(** With three attempts the delays are one second, then two. *)
Example backoff_events_three :
  backoff_events 0 2 = [EvAttempt 0%nat; EvSleep 1000; EvAttempt 1%nat; EvSleep 2000].
Proof. reflexivity. Qed.

(** C2: [withRetry] calls the operation at most [maxRetries] times; the first
    success is returned at once; a retryable failure of attempt [k] before the
    last one is followed by a delay of [RETRY_DELAY_BASE * 2 ^ k] milliseconds
    and then by attempt [k + 1]; the error of the last attempt is thrown and
    nothing follows it. *)
Theorem withRetry_contract {A} (operation : nat -> Outcome A) (maxRetries : nat) (w : World) :
  (exists evs, snd (withRetry operation maxRetries w) = after w evs
               /\ (attempts evs <= maxRetries)%nat)
  /\ (forall k v,
        (k < maxRetries)%nat ->
        (forall j, (j < k)%nat -> fails_retryably (operation j)) ->
        operation k = Resolves v ->
        withRetry operation maxRetries w
        = (Normal (Some v), after w (backoff_events 0 k ++ [EvAttempt k])))
  /\ (forall k,
        (S k < maxRetries)%nat ->
        (forall j, (j <= k)%nat -> fails_retryably (operation j)) ->
        exists evs,
          snd (withRetry operation maxRetries w)
          = after w (backoff_events 0 k
                     ++ [EvAttempt k; EvSleep (RETRY_DELAY_BASE * 2 ^ Z.of_nat k);
                         EvAttempt (S k)] ++ evs))
  /\ (forall t,
        (0 < maxRetries)%nat ->
        (forall j, (j < maxRetries - 1)%nat -> fails_retryably (operation j)) ->
        operation (maxRetries - 1)%nat = Rejects t ->
        withRetry operation maxRetries w
        = (Abrupt t, after w (backoff_events 0 (maxRetries - 1)
                              ++ [EvAttempt (maxRetries - 1)]))).
Proof.
  unfold withRetry. repeat split.
  - destruct (retry_loop_events operation maxRetries maxRetries 0%nat w) as (evs & ? & ? & _).
    eauto.
  - intros k v Hk Hfail Hok.
    rewrite (retry_loop_skip operation maxRetries k maxRetries 0%nat w)
      by (try lia; intros j Hj; apply Hfail; lia).
    destruct (maxRetries - k)%nat as [|remaining] eqn:Hrem; [lia|].
    rewrite retry_loop_step. simpl. rewrite Hok, after_after. reflexivity.
  - intros k Hk Hfail.
    rewrite (retry_loop_skip operation maxRetries (S k) maxRetries 0%nat w)
      by (try lia; intros j Hj; apply Hfail; lia).
    destruct (maxRetries - S k)%nat as [|remaining] eqn:Hrem; [lia|].
    rewrite retry_loop_step.
    rewrite backoff_events_snoc. cbn [Nat.add].
    destruct (operation (S k)) as [v|error].
    + exists []. simpl. rewrite after_after, <- app_assoc. reflexivity.
    + destruct ((S k =? maxRetries - 1)%nat || non_retryable error).
      * exists []. simpl. rewrite after_after, <- app_assoc. reflexivity.
      * destruct (retry_loop_events operation maxRetries remaining (S (S k))
                    (after (after w (backoff_events 0 k
                                     ++ [EvAttempt k;
                                         EvSleep (RETRY_DELAY_BASE * 2 ^ Z.of_nat k)]))
                       [EvAttempt (S k);
                        EvSleep (RETRY_DELAY_BASE * 2 ^ Z.of_nat (S k))]))
          as (evs & Hw & _).
        exists (EvSleep (RETRY_DELAY_BASE * 2 ^ Z.of_nat (S k)) :: evs).
        rewrite Hw, !after_after, <- !app_assoc. reflexivity.
  - intros t Hpos Hfail Hlast.
    rewrite (retry_loop_skip operation maxRetries (maxRetries - 1) maxRetries 0%nat w)
      by (try lia; intros j Hj; apply Hfail; lia).
    replace (maxRetries - (maxRetries - 1))%nat with 1%nat by lia.
    rewrite retry_loop_step. simpl. rewrite Hlast, Nat.eqb_refl, after_after. reflexivity.
Qed.

Lemma withRetry_contract_witness :
  withRetry flaky MAX_RETRIES empty_world
  = (Normal (Some "ok"), after empty_world (backoff_events 0 2 ++ [EvAttempt 2]))
  /\ (exists evs,
        snd (withRetry flaky MAX_RETRIES empty_world)
        = after empty_world (backoff_events 0 0
                             ++ [EvAttempt 0; EvSleep (RETRY_DELAY_BASE * 2 ^ Z.of_nat 0);
                                 EvAttempt 1] ++ evs))
  /\ withRetry failing MAX_RETRIES empty_world
     = (Abrupt (ThrowError server_error),
        after empty_world (backoff_events 0 (MAX_RETRIES - 1) ++ [EvAttempt (MAX_RETRIES - 1)])).
Proof.
  destruct (withRetry_contract flaky MAX_RETRIES empty_world) as (_ & Hfirst & Hwait & _).
  destruct (withRetry_contract failing MAX_RETRIES empty_world) as (_ & _ & _ & Hlast).
  split; [|split].
  - apply (Hfirst 2%nat "ok"); [unfold MAX_RETRIES; lia | | reflexivity].
    intros [|[|j]] Hj; [reflexivity | reflexivity | lia].
  - apply (Hwait 0%nat); [unfold MAX_RETRIES; lia|].
    intros [|j] Hj; [reflexivity | lia].
  - apply (Hlast (ThrowError server_error)); [unfold MAX_RETRIES; lia | | reflexivity].
    intros j Hj. reflexivity.
Defined.

(** A non-retryable error of attempt [k], reached through retryable failures,
    is thrown at once: no delay and no attempt follows it. *)
Lemma retry_loop_non_retryable {A} (operation : nat -> Outcome A) maxRetries k t w :
  (k < maxRetries)%nat ->
  (forall j, (j < k)%nat -> fails_retryably (operation j)) ->
  operation k = Rejects t ->
  non_retryable t = true ->
  withRetry operation maxRetries w = (Abrupt t, after w (backoff_events 0 k ++ [EvAttempt k])).
Proof.
  intros Hk Hfail Hop Hnon. unfold withRetry.
  rewrite (retry_loop_skip operation maxRetries k maxRetries 0%nat w)
    by (try lia; intros j Hj; apply Hfail; lia).
  destruct (maxRetries - k)%nat as [|remaining] eqn:Hrem; [lia|].
  rewrite retry_loop_step. simpl. rewrite Hop, Hnon, orb_true_r, after_after. reflexivity.
Qed.

(** C3: an error whose code is [ENOTFOUND] or whose status is 401 or 403 is
    thrown again at once, whatever the number of attempts left.  When the
    operation fails with it, the operation has been called exactly once and no
    delay has been awaited; when it comes after retryable failures, no delay
    and no attempt follows it. *)
Theorem withRetry_non_retryable {A} (operation : nat -> Outcome A) (maxRetries : nat)
    (e : JsError) (w : World) :
  err_code e = Some "ENOTFOUND" \/ err_status e = Some 401 \/ err_status e = Some 403 ->
  ((0 < maxRetries)%nat ->
   operation 0%nat = Rejects (ThrowError e) ->
   withRetry operation maxRetries w = (Abrupt (ThrowError e), after w [EvAttempt 0]))
  /\ (forall k,
        (k < maxRetries)%nat ->
        (forall j, (j < k)%nat -> fails_retryably (operation j)) ->
        operation k = Rejects (ThrowError e) ->
        withRetry operation maxRetries w
        = (Abrupt (ThrowError e), after w (backoff_events 0 k ++ [EvAttempt k]))).
Proof.
  intros Hkind.
  assert (non_retryable (ThrowError e) = true) as Hnon.
  { simpl. destruct Hkind as [-> | [-> | ->]]; simpl.
    - reflexivity.
    - apply orb_true_iff. left. apply orb_true_iff. right. reflexivity.
    - apply orb_true_r. }
  split.
  - intros Hpos Hop.
    apply (retry_loop_non_retryable operation maxRetries 0 (ThrowError e) w); auto.
    intros j Hj. lia.
  - intros k Hk Hfail Hop.
    apply (retry_loop_non_retryable operation maxRetries k (ThrowError e) w); auto.
Qed.

Lemma withRetry_non_retryable_witness :
  withRetry denied MAX_RETRIES empty_world
  = (Abrupt (ThrowError unauthorized), after empty_world [EvAttempt 0])
  /\ withRetry slow_denial MAX_RETRIES empty_world
     = (Abrupt (ThrowError unauthorized),
        after empty_world (backoff_events 0 1 ++ [EvAttempt 1])).
Proof.
  split.
  - destruct (withRetry_non_retryable denied MAX_RETRIES unauthorized empty_world)
      as [Hfirst _]; [right; left; reflexivity|].
    apply Hfirst; [unfold MAX_RETRIES; lia | reflexivity].
  - destruct (withRetry_non_retryable slow_denial MAX_RETRIES unauthorized empty_world)
      as [_ Hlater]; [right; left; reflexivity|].
    apply (Hlater 1%nat); [unfold MAX_RETRIES; lia | | reflexivity].
    intros [|j] Hj; [reflexivity | lia].
Defined.

(** ** Schema validation *)

Section ValidationProperties.
Context `{JsBuiltins}.

Local Abbreviation value := (jsval number).

Lemma truthy_bound_nonzero bound : nonzero bound = true -> truthy_bound bound = bound.
Proof. destruct bound as [[| |]|]; simpl; congruence. Qed.

Lemma first_violation_app checks checks' :
  first_violation (checks ++ checks') =
  match first_violation checks with
  | Some message => Some message
  | None => first_violation checks'
  end.
Proof.
  induction checks as [|[violated message] checks IH]; simpl; [reflexivity|].
  destruct violated; auto.
Qed.

Lemma well_typed_rules_inv r :
  well_typed_rules r = true ->
  truthy_bound (Rules.minLength r) = Rules.minLength r
  /\ truthy_bound (Rules.maxLength r) = Rules.maxLength r
  /\ truthy_bound (Rules.min r) = Rules.min r
  /\ truthy_bound (Rules.max r) = Rules.max r
  /\ (Rules.minLength r = None /\ Rules.maxLength r = None \/ Rules.type r = Some TyString)
  /\ (Rules.min r = None /\ Rules.max r = None \/ Rules.type r = Some TyNumber).
Proof.
  unfold well_typed_rules. rewrite !andb_true_iff, !orb_true_iff, !andb_true_iff.
  intros ((((( H1 & H2 ) & H3 ) & H4 ) & H5 ) & H6 ).
  repeat split; auto using truthy_bound_nonzero.
  - destruct H5 as [[Ha Hb]|Hty]; [left|right].
    + destruct (Rules.minLength r), (Rules.maxLength r); simpl in *; auto; discriminate.
    + apply bool_decide_eq_true in Hty. exact Hty.
  - destruct H6 as [[Ha Hb]|Hty]; [left|right].
    + destruct (Rules.min r), (Rules.max r); simpl in *; auto; discriminate.
    + apply bool_decide_eq_true in Hty. exact Hty.
Qed.

Lemma includes_member members (v : value) : includes members v = member members v.
Proof.
  destruct v as [| | | |s| |]; try reflexivity. unfold includes, member.
  destruct (existsb (String.eqb s) members) eqn:Hexists; symmetry.
  - apply bool_decide_eq_true_2. apply existsb_exists in Hexists as (m & Hin & Heq).
    apply String.eqb_eq in Heq as ->. apply list_elem_of_In. exact Hin.
  - apply bool_decide_eq_false_2. intros Hin. apply list_elem_of_In in Hin.
    assert (existsb (String.eqb s) members = true) as Htrue
      by (apply existsb_exists; exists s; split; [exact Hin|apply String.eqb_refl]).
    congruence.
Qed.

(** On a well-typed rule set the loop body does what the amended rules say. *)
Lemma checkField_refines field r (v : value) :
  well_typed_rules r = true ->
  checkField field r v = verdict (first_violation (amended_rules field r v)).
Proof.
  intros Hok. apply well_typed_rules_inv in Hok.
  destruct Hok as (Hml & HMl & Hlo & Hhi & Hlen & Hnum).
  unfold checkField, amended_rules, rule_list. rewrite Hml, HMl, Hlo, Hhi.
  clear Hml HMl Hlo Hhi.
  destruct r as [ty req minL maxL lo hi en]; cbn [Rules.type Rules.required Rules.minLength
    Rules.maxLength Rules.min Rules.max Rules.enum] in *.
  destruct Hlen as [[-> ->] | Hstr]; destruct Hnum as [[-> ->] | Hnum];
    subst; try discriminate;
    destruct req, v; try destruct minL; try destruct maxL; try destruct lo; try destruct hi;
    try destruct ty as [[]|]; destruct en;
    rewrite ?includes_member;
    unfold js_lt, js_gt, length_lt, length_gt, below, above, shorter_than,
      longer_than, to_number, invalid;
    cbn [app bound_rule first_violation verdict fail_if cbind nullish is_undefined
         absent given is_string is_number
         typeof negb andb orb bool_decide decide decide_rel];
    repeat match goal with
           | |- context [bool_decide (?a = ?b)] =>
               let decided := eval vm_compute in (bool_decide (a = b)) in
               change (bool_decide (a = b)) with decided
           end;
    cbn [app bound_rule first_violation verdict fail_if cbind negb andb orb];
    try reflexivity;
    repeat (match goal with
            | |- context [fail_if ?b _] => destruct b
            | |- context [if ?b then _ else _] => destruct b
            end;
            cbn [app bound_rule first_violation verdict fail_if cbind negb andb orb];
            try reflexivity).
Qed.

Lemma rules_of_cons looks_at field r schema (args : list (string * value)) :
  rules_of looks_at ((field, r) :: schema) args
  = rule_list looks_at field r (get args field) ++ rules_of looks_at schema args.
Proof. reflexivity. Qed.

Lemma validateFields_refines schema (args : list (string * value)) :
  well_typed_schema schema = true ->
  validateFields schema args = amended_validateFields schema args.
Proof.
  unfold amended_validateFields.
  induction schema as [|[field r] schema IH]; intros Hok; [reflexivity|].
  apply andb_true_iff in Hok as [Hr Hrest]. cbn [validateFields].
  rewrite rules_of_cons, (checkField_refines field r _ Hr), first_violation_app.
  unfold amended_rules.
  destruct (first_violation (rule_list given field r (get args field))); [reflexivity|].
  apply IH, Hrest.
Qed.

Lemma validateFields_app before rest (args : list (string * value)) :
  validateFields (before ++ rest) args
  = cbind (validateFields before args) (fun _ => validateFields rest args).
Proof.
  induction before as [|[field r] before IH]; [reflexivity|].
  cbn [app validateFields]. rewrite IH.
  destruct (checkField field r (get args field)); reflexivity.
Qed.

Lemma registered_schemas_well_typed toolName schema :
  lookup_schema toolName validationSchemas = Some schema ->
  well_typed_schema schema = true.
Proof.
  unfold validationSchemas. cbn [lookup_schema].
  repeat (destruct (String.eqb _ toolName); [intros [= <-]; reflexivity|]).
  discriminate.
Qed.

Lemma well_typed_schema_In schema field r :
  well_typed_schema schema = true -> In (field, r) schema -> well_typed_rules r = true.
Proof.
  unfold well_typed_schema. rewrite forallb_forall. intros Hall Hin. apply (Hall _ Hin).
Qed.

Lemma well_typed_schema_app before rest :
  well_typed_schema (before ++ rest) = true ->
  well_typed_schema before = true /\ well_typed_schema rest = true.
Proof. unfold well_typed_schema. rewrite forallb_app. apply andb_true_iff. Qed.

(** The fields before a field have no violated rule exactly when the loop
    gets past them. *)
Lemma earlier_fields_pass before (args : list (string * value)) :
  well_typed_schema before = true ->
  (first_violation (rules_of given before args) = None <-> validateFields before args = Normal tt).
Proof.
  intros Hok. rewrite (validateFields_refines _ _ Hok).
  unfold amended_validateFields, verdict, invalid.
  destruct (first_violation _); split; intros Heq; (discriminate Heq || reflexivity).
Qed.


Lemma first_violation_exists checks message :
  In (true, message) checks -> exists message', first_violation checks = Some message'.
Proof.
  induction checks as [|[violated m] checks IH]; intros Hin; [destruct Hin|].
  simpl. destruct violated; [eauto|].
  destruct Hin as [Heq|Hin]; [discriminate|auto].
Qed.

(** Validation fails as soon as some field of a well-typed schema has a
    violated rule. *)
Lemma violated_rule_fails schema (args : list (string * value)) field r message :
  well_typed_schema schema = true ->
  In (field, r) schema ->
  In (true, message) (amended_rules field r (get args field)) ->
  exists message', validateFields schema args = invalid message'.
Proof.
  intros Hok Hin Hrule. rewrite (validateFields_refines _ _ Hok). unfold amended_validateFields.
  destruct (first_violation_exists (rules_of given schema args) message) as [message' ->];
    [|simpl; eauto].
  apply in_concat. exists (amended_rules field r (get args field)). split; [|exact Hrule].
  apply in_map_iff. exists (field, r). auto.
Qed.

Lemma given_not_undefined (v : value) : given v = negb (is_undefined v).
Proof. destruct v; reflexivity. Qed.

Lemma below_min_fails schema (args : list (string * value)) field r n :
  well_typed_schema schema = true ->
  In (field, r) schema ->
  Rules.min r = Some n ->
  given (get args field) = true ->
  js_lt (get args field) n = true ->
  exists message, validateFields schema args = invalid message.
Proof.
  intros Hok Hin Hmin Hgiven Hlt.
  pose proof (well_typed_schema_In _ _ _ Hok Hin) as Hr.
  apply well_typed_rules_inv in Hr. destruct Hr as (_ & _ & _ & _ & _ & Hnum).
  destruct Hnum as [[Hnone _]|Hty]; [congruence|].
  destruct (is_number (get args field)) eqn:Hnumber.
  - apply (violated_rule_fails schema args field r
             ("Field " +:+ field +:+ " must be at least " +:+ pretty n) Hok Hin).
    unfold amended_rules, rule_list. rewrite Hmin, !in_app_iff. right. right. right. left.
    simpl. left. f_equal. rewrite Hgiven. simpl.
    destruct (get args field); try discriminate Hnumber. exact Hlt.
  - apply (violated_rule_fails schema args field r
             ("Field " +:+ field +:+ " must be a number") Hok Hin).
    unfold amended_rules, rule_list. apply in_or_app; left. right. right. left. f_equal.
    rewrite Hgiven, Hty, Hnumber. reflexivity.
Qed.

Lemma above_max_fails schema (args : list (string * value)) field r n :
  well_typed_schema schema = true ->
  In (field, r) schema ->
  Rules.max r = Some n ->
  given (get args field) = true ->
  js_gt (get args field) n = true ->
  exists message, validateFields schema args = invalid message.
Proof.
  intros Hok Hin Hmax Hgiven Hgt.
  pose proof (well_typed_schema_In _ _ _ Hok Hin) as Hr.
  apply well_typed_rules_inv in Hr. destruct Hr as (_ & _ & _ & _ & _ & Hnum).
  destruct Hnum as [[_ Hnone]|Hty]; [congruence|].
  destruct (is_number (get args field)) eqn:Hnumber.
  - apply (violated_rule_fails schema args field r
             ("Field " +:+ field +:+ " must be at most " +:+ pretty n) Hok Hin).
    unfold amended_rules, rule_list. rewrite Hmax, !in_app_iff. right. right. right. right. left.
    simpl. left. f_equal. rewrite Hgiven. simpl.
    destruct (get args field); try discriminate Hnumber. exact Hgt.
  - apply (violated_rule_fails schema args field r
             ("Field " +:+ field +:+ " must be a number") Hok Hin).
    unfold amended_rules, rule_list. apply in_or_app; left. right. right. left. f_equal.
    rewrite Hgiven, Hty, Hnumber. reflexivity.
Qed.

(** A Number checked against the numeric bounds of a well-typed rule set:
    the rules before [min] are not violated, and [max] comes right after
    [min]. *)
Lemma number_against_bounds field r (x : number) :
  well_typed_rules r = true ->
  (Rules.min r <> None \/ Rules.max r <> None) ->
  checkField field r (JNum x)
  = cbind (match Rules.min r with
           | Some n => fail_if (num_lt x (num_of_Z n))
                         ("Field " +:+ field +:+ " must be at least " +:+ pretty n)
           | None => Normal tt
           end)
      (fun _ =>
         cbind (match Rules.max r with
                | Some n => fail_if (num_lt (num_of_Z n) x)
                              ("Field " +:+ field +:+ " must be at most " +:+ pretty n)
                | None => Normal tt
                end)
           (fun _ =>
              match Rules.enum r with
              | Some members =>
                  fail_if true ("Field " +:+ field +:+ " must be one of: "
                                +:+ join ", " members)
              | None => Normal tt
              end)).
Proof.
  intros Hr Hset. apply well_typed_rules_inv in Hr.
  destruct Hr as (HminL' & HmaxL' & Hlo & Hhi & Hlen & Hnum).
  destruct Hnum as [[Hnone Hnone']|Hty]; [destruct Hset; congruence|].
  destruct Hlen as [[HminL HmaxL]|Hstr]; [|congruence].
  unfold checkField. rewrite Hlo, Hhi, HminL, HmaxL, Hty.
  destruct r as [ty req minL maxL lo hi en]; cbn [Rules.type Rules.required Rules.minLength
    Rules.maxLength Rules.min Rules.max Rules.enum] in *.
  rewrite andb_false_r.
  cbn [truthy_bound fail_if cbind is_undefined nullish typeof bool_decide decide decide_rel
       andb negb includes js_lt js_gt to_number].
  unfold js_lt, js_gt, to_number.
  destruct lo, hi, en; reflexivity.
Qed.

Lemma below_min_message schema before field r rest (args : list (string * value)) n x :
  well_typed_schema schema = true ->
  schema = before ++ (field, r) :: rest ->
  first_violation (rules_of given before args) = None ->
  Rules.min r = Some n ->
  get args field = JNum x ->
  num_lt x (num_of_Z n) = true ->
  validateFields schema args = invalid ("Field " +:+ field +:+ " must be at least " +:+ pretty n).
Proof.
  intros Hok -> Hbefore Hmin Hget Hlt.
  destruct (well_typed_schema_app _ _ Hok) as [Hok1 Hok2].
  apply andb_true_iff in Hok2 as [Hr _]. cbn [snd] in Hr.
  apply (earlier_fields_pass before args Hok1) in Hbefore.
  rewrite validateFields_app, Hbefore. cbn [cbind validateFields].
  rewrite Hget, (number_against_bounds field r x Hr) by (left; congruence).
  rewrite Hmin, Hlt. reflexivity.
Qed.

Lemma above_max_message schema before field r rest (args : list (string * value)) n x :
  well_typed_schema schema = true ->
  schema = before ++ (field, r) :: rest ->
  first_violation (rules_of given before args) = None ->
  Rules.max r = Some n ->
  get args field = JNum x ->
  (forall m, Rules.min r = Some m -> num_lt x (num_of_Z m) = false) ->
  num_lt (num_of_Z n) x = true ->
  validateFields schema args = invalid ("Field " +:+ field +:+ " must be at most " +:+ pretty n).
Proof.
  intros Hok -> Hbefore Hmax Hget Hmin Hgt.
  destruct (well_typed_schema_app _ _ Hok) as [Hok1 Hok2].
  apply andb_true_iff in Hok2 as [Hr _]. cbn [snd] in Hr.
  apply (earlier_fields_pass before args Hok1) in Hbefore.
  rewrite validateFields_app, Hbefore. cbn [cbind validateFields].
  rewrite Hget, (number_against_bounds field r x Hr) by (right; congruence).
  rewrite Hmax, Hgt. destruct (Rules.min r) as [m|]; [|reflexivity].
  rewrite (Hmin m eq_refl). reflexivity.
Qed.

(** The rules as worded and as amended differ on [null] only, and there only
    when the field is not required. *)
Lemma rule_list_without_null field r (v : value) :
  (v = JNull -> Rules.required r = true) ->
  first_violation (spec_rules field r v) = first_violation (amended_rules field r v).
Proof.
  intros Hnull. unfold spec_rules, amended_rules.
  destruct v; try reflexivity.
  unfold rule_list. rewrite (Hnull eq_refl). reflexivity.
Qed.

Lemma spec_validateFields_without_null schema (args : list (string * value)) :
  no_optional_null schema args ->
  spec_validateFields schema args = amended_validateFields schema args.
Proof.
  unfold spec_validateFields, amended_validateFields. intros Hnull. f_equal.
  induction schema as [|[field r] schema IH]; [reflexivity|].
  rewrite !rules_of_cons, !first_violation_app.
  change (rule_list present field r (get args field))
    with (spec_rules field r (get args field)).
  change (rule_list given field r (get args field))
    with (amended_rules field r (get args field)).
  rewrite (rule_list_without_null field r (get args field))
    by (apply (Hnull field r); left; reflexivity).
  rewrite IH; [reflexivity|].
  intros field' r' Hin. apply (Hnull field' r'). right. exact Hin.
Qed.

(** C4, as amended: without a registered schema validation passes; otherwise
    the fields are checked in the order of the schema, each by the rules in
    the listed order, where rule 1 counts [undefined] and [null] as absent
    and rules 2 to 8 look at every value but [undefined]; validation fails
    with the message of the first violated rule and passes when there is
    none.  Where no field that is not required is bound to [null], this is
    the validator of the specification's own words.  A given value below a
    registered [min] fails, and so does one above a registered [max]; the
    message is the one of that rule when no rule before it is violated: no
    earlier field has a violated rule and the value is a Number (for [max],
    one that is not below [min]). *)
Theorem validateInput_follows_rules (toolName : string) (args : list (string * value)) :
  (lookup_schema toolName validationSchemas = None -> validateInput toolName args = Normal tt)
  /\ validateInput toolName args = amended_validateInput toolName args
  /\ (forall schema,
        lookup_schema toolName validationSchemas = Some schema ->
        no_optional_null schema args ->
        validateInput toolName args = spec_validateInput toolName args)
  /\ (forall schema field r n,
        lookup_schema toolName validationSchemas = Some schema ->
        In (field, r) schema ->
        Rules.min r = Some n ->
        given (get args field) = true ->
        js_lt (get args field) n = true ->
        exists message, validateInput toolName args = rejected message)
  /\ (forall schema before field r rest n x,
        lookup_schema toolName validationSchemas = Some schema ->
        schema = before ++ (field, r) :: rest ->
        first_violation (rules_of given before args) = None ->
        Rules.min r = Some n ->
        get args field = JNum x ->
        num_lt x (num_of_Z n) = true ->
        validateInput toolName args
        = rejected ("Field " +:+ field +:+ " must be at least " +:+ pretty n))
  /\ (forall schema field r n,
        lookup_schema toolName validationSchemas = Some schema ->
        In (field, r) schema ->
        Rules.max r = Some n ->
        given (get args field) = true ->
        js_gt (get args field) n = true ->
        exists message, validateInput toolName args = rejected message)
  /\ (forall schema before field r rest n x,
        lookup_schema toolName validationSchemas = Some schema ->
        schema = before ++ (field, r) :: rest ->
        first_violation (rules_of given before args) = None ->
        Rules.max r = Some n ->
        get args field = JNum x ->
        (forall m, Rules.min r = Some m -> num_lt x (num_of_Z m) = false) ->
        num_lt (num_of_Z n) x = true ->
        validateInput toolName args
        = rejected ("Field " +:+ field +:+ " must be at most " +:+ pretty n)).
Proof.
  change rejected with (@invalid unit).
  unfold validateInput, amended_validateInput, spec_validateInput.
  destruct (lookup_schema toolName validationSchemas) as [schema|] eqn:Hschema.
  - pose proof (registered_schemas_well_typed _ _ Hschema) as Hok.
    split; [discriminate|]. split; [apply validateFields_refines, Hok|].
    split; [|split; [|split; [|split]]].
    + intros schema' [= <-] Hnull.
      rewrite (spec_validateFields_without_null _ _ Hnull). apply validateFields_refines, Hok.
    + intros schema' field r n [= <-]. apply below_min_fails, Hok.
    + intros schema' before field r rest n x [= <-]. apply below_min_message, Hok.
    + intros schema' field r n [= <-]. apply above_max_fails, Hok.
    + intros schema' before field r rest n x [= <-]. apply above_max_message, Hok.
  - repeat split; try reflexivity; intros; discriminate.
Qed.

(** A bound of [0] is falsy, so the loop body never tests it; the rule as the
    specification words it would.  No registered schema has such a bound. *)
Remark zero_bound_not_enforced field (x : number) :
  checkField field at_least_zero (JNum x) = Normal tt
  /\ (num_lt x (num_of_Z 0) = true ->
      verdict (first_violation (spec_rules field at_least_zero (JNum x)))
      = invalid ("Field " +:+ field +:+ " must be at least " +:+ pretty 0)).
Proof.
  split; [reflexivity|]. intros Hlt. unfold spec_rules, rule_list, at_least_zero, rules.
  cbn [Rules.type Rules.required Rules.minLength Rules.maxLength Rules.min Rules.max
       Rules.enum app bound_rule first_violation verdict absent present is_string is_number
       negb andb below].
  cbn [bool_decide decide decide_rel andb negb first_violation].
  rewrite Hlt. reflexivity.
Qed.


End ValidationProperties.

Lemma validateInput_follows_rules_witness :
  @validateInput IntegerRuntime.builtins "generate_code" image_zero = Normal tt
  /\ @validateInput IntegerRuntime.builtins "image_generate" image_zero
     = rejected "Field n must be at least 1"
  /\ (exists message,
        @validateInput IntegerRuntime.builtins "image_generate" image_zero = rejected message)
  /\ (exists message,
        @validateInput IntegerRuntime.builtins "image_generate" image_five = rejected message)
  /\ @validateInput IntegerRuntime.builtins "image_generate" image_five
     = rejected "Field n must be at most 4"
  /\ @validateInput IntegerRuntime.builtins "image_generate" image_five
     = @spec_validateInput IntegerRuntime.builtins "image_generate" image_five.
Proof.
  destruct (@validateInput_follows_rules IntegerRuntime.builtins "generate_code" image_zero)
    as (Hnone & _).
  destruct (@validateInput_follows_rules IntegerRuntime.builtins "image_generate" image_zero)
    as (_ & _ & _ & Hmin & Hmessage & _).
  destruct (@validateInput_follows_rules IntegerRuntime.builtins "image_generate" image_five)
    as (_ & _ & Hspec & _ & _ & Hmax & Hmessage').
  split; [apply Hnone; reflexivity|].
  split; [|split; [|split; [|split]]].
  - eapply (Hmessage _ [_; _] "n" _ [] 1 (Some 0)); reflexivity.
  - eapply (Hmin _ "n" (rules TyNumber false None None (Some 1) (Some 4) None) 1);
      [reflexivity | simpl; auto | reflexivity | reflexivity | reflexivity].
  - eapply (Hmax _ "n" (rules TyNumber false None None (Some 1) (Some 4) None) 4);
      [reflexivity | simpl; auto | reflexivity | reflexivity | reflexivity].
  - eapply (Hmessage' _ [_; _] "n" _ [] 4 (Some 5));
      [reflexivity | reflexivity | reflexivity | reflexivity | reflexivity | | reflexivity].
    intros m [= <-]. reflexivity.
  - eapply Hspec; [reflexivity|].
    intros field r Hin Hnull. simpl in Hin.
    destruct Hin as [[= <- <-]|[[= <- <-]|[[= <- <-]|[]]]]; try discriminate Hnull.
Defined.

(** C4 as stated fails.  With [null] for the field [language] of
    [analyze_code], which is not required, no rule of the specification is
    violated, and validation fails with the message of the type rule.  And a
    value below [min] does not always fail with the message of [min]: without
    the required [prompt], the message is the one of the missing field. *)
Lemma null_language_is_rejected :
  @spec_validateInput IntegerRuntime.builtins "analyze_code" code_null_language = Normal tt
  /\ @validateInput IntegerRuntime.builtins "analyze_code" code_null_language
     = rejected "Field language must be a string"
  /\ @given IntegerRuntime.builtins (@get IntegerRuntime.builtins image_only_zero "n") = true
  /\ @js_lt IntegerRuntime.builtins (@get IntegerRuntime.builtins image_only_zero "n") 1 = true
  /\ @validateInput IntegerRuntime.builtins "image_generate" image_only_zero
     = rejected "Missing required field: prompt".
Proof. repeat split; reflexivity. Qed.



(** ** The request handler *)

Section PipelineProperties.
Context `{JsBuiltins}.
Variable this : Server.
Variable ext : External.

Local Abbreviation value := (jsval number).

Lemma getCachedResponse_run key w :
  getCachedResponse key w
  = (Normal (fresh_data w key),
     snd (getCachedResponse key w)).
Proof. rewrite <- getCachedResponse_result. apply surjective_pairing. Qed.

Lemma setCachedResponse_run key result w :
  setCachedResponse key result w = (Normal tt, snd (setCachedResponse key result w)).
Proof. rewrite <- (setCachedResponse_normal key result w). apply surjective_pairing. Qed.

(** The [try] block, step by step. *)
Lemma tryBlock_run name (args : list (string * value)) w :
  tryBlock this ext name args w =
  match validateInput name args with
  | Abrupt t => (Abrupt t, w)
  | Normal _ =>
      let key := cacheKey name args in
      let w1 := snd (getCachedResponse key w) in
      match served (fresh_data w key) name with
      | Some payload => (Normal {| text := Some ("[CACHED] " +:+ payload) |}, w1)
      | None =>
          match dispatch this ext name args w1 with
          | (Normal result, w2) =>
              (Normal {| text := result |},
               if cacheable name then snd (setCachedResponse key result w2) else w2)
          | (Abrupt t, w2) => (Abrupt t, w2)
          end
      end
  end.
Proof.
  unfold tryBlock, bind at 1, lift.
  destruct (validateInput name args) as [[]|t]; [|reflexivity].
  unfold bind at 1. rewrite getCachedResponse_run. cbv zeta.
  destruct (served _ name) as [payload|]; [reflexivity|].
  unfold bind at 1.
  destruct (dispatch this ext name args _) as [[result|t] w2]; [|reflexivity].
  unfold bind at 1.
  destruct (cacheable name); [rewrite setCachedResponse_run|]; reflexivity.
Qed.

Lemma callTool_run request w :
  callTool this ext request w =
  match tryBlock this ext (params_name request) (params_arguments request) w with
  | (Normal response, w') => (Normal response, w')
  | (Abrupt t, w') => (Abrupt (ThrowMcp (surface t)), w')
  end.
Proof. reflexivity. Qed.

(** A handler leaves the cache and the clock alone: it only adds events of its
    own to the trace. *)
Lemma withRetry_world {A} (operation : nat -> Outcome A) maxRetries w :
  exists evs, snd (withRetry operation maxRetries w) = after w evs
              /\ forallb handler_event evs = true.
Proof.
  destruct (retry_loop_events operation maxRetries maxRetries 0%nat w) as (evs & Hw & _ & Hall).
  exists evs. split; [exact Hw|].
  rewrite forallb_forall in *. intros ev Hin. specialize (Hall ev Hin).
  destruct ev; simpl in *; congruence.
Qed.

Lemma openai_handler_world tool (args : list (string * value)) w :
  exists evs, snd (openai_handler this ext tool args w) = after w (EvHandler tool :: evs)
              /\ forallb handler_event evs = true.
Proof.
  unfold openai_handler, bind. rewrite emit_after.
  destruct (openai this).
  - destruct (withRetry_world (ext tool args) MAX_RETRIES (after w [EvHandler tool]))
      as (evs & Hw & Hall).
    exists evs. rewrite Hw, after_after. auto.
  - exists []. auto.
Qed.

Lemma plain_handler_world tool (args : list (string * value)) w :
  exists evs, snd (plain_handler ext tool args w) = after w (EvHandler tool :: evs)
              /\ forallb handler_event evs = true.
Proof.
  unfold plain_handler, bind. rewrite emit_after.
  destruct (withRetry_world (ext tool args) MAX_RETRIES (after w [EvHandler tool]))
    as (evs & Hw & Hall).
  exists evs. rewrite Hw, after_after. auto.
Qed.

Lemma dispatch_world name (args : list (string * value)) w :
  exists evs, snd (dispatch this ext name args w) = after w evs
              /\ forallb handler_event evs = true.
Proof.
  unfold dispatch, handleAskAthena, handleGetSystemStats, handleAnalyzeCode,
    handleGenerateCode, handleImageGenerate, handleWebRequest.
  repeat match goal with
         | |- context [if String.eqb name ?s then _ else _] => destruct (String.eqb name s)
         end;
    try match goal with
        | |- context [openai_handler _ _ ?tool _ _] =>
            destruct (openai_handler_world tool args w) as (evs & -> & Hall);
            exists (EvHandler tool :: evs); split; [reflexivity | exact Hall]
        | |- context [plain_handler _ ?tool _ _] =>
            destruct (plain_handler_world tool args w) as (evs & -> & Hall);
            exists (EvHandler tool :: evs); split; [reflexivity | exact Hall]
        end.
  exists []. simpl. rewrite after_nil. auto.
Qed.

(** What a handler throws is the error of an attempt of its operation, or the
    error of the missing OpenAI client. *)
Lemma dispatch_throws name (args : list (string * value)) w t :
  In name tool_names ->
  fst (dispatch this ext name args w) = Abrupt t ->
  t = ThrowMcp openai_missing \/ exists i, ext name args i = Rejects t.
Proof.
  intros Hin. unfold dispatch, handleAskAthena, handleGetSystemStats, handleAnalyzeCode,
    handleGenerateCode, handleImageGenerate, handleWebRequest.
  repeat match goal with
         | |- context [if String.eqb name ?s then _ else _] =>
             destruct (String.eqb_spec name s) as [->|?]
         end;
    try (unfold openai_handler, plain_handler, bind; rewrite emit_after;
         try (destruct (openai this); [|simpl; intros [= <-]; auto]);
         unfold withRetry; intros Hthrow; right;
         exact (retry_loop_throws _ _ _ _ _ _ Hthrow)).
  exfalso. simpl in Hin. intuition congruence.
Qed.

Lemma handler_event_not_set evs key :
  forallb handler_event evs = true -> ~ In (EvCacheSet key) evs.
Proof.
  rewrite forallb_forall. intros Hall Hin. specialize (Hall _ Hin). discriminate.
Qed.

(** C9: a call that ends in an error leaves the cache as it was.  A
    validation failure ends the call before anything is read or written, and
    no failed call stores an entry. *)
Theorem failed_call_leaves_cache (request : Request) (w : World) (t : Thrown) (w' : World) :
  callTool this ext request w = (Abrupt t, w') ->
  cache w' = cache w
  /\ (exists evs, log w' = log w ++ evs /\ forall key, ~ In (EvCacheSet key) evs)
  /\ (forall e,
        validateInput (params_name request) (params_arguments request) = Abrupt e ->
        w' = w /\ t = ThrowMcp (surface e)).
Proof.
  rewrite callTool_run, tryBlock_run.
  destruct (validateInput (params_name request) (params_arguments request)) as [[]|e].
  - cbv zeta.
    destruct (getCachedResponse_world (cacheKey (params_name request) (params_arguments request)) w)
      as (Hcache & _ & Hlog).
    destruct (served _ _) as [payload|]; [discriminate|].
    destruct (dispatch_world (params_name request) (params_arguments request)
                (snd (getCachedResponse
                        (cacheKey (params_name request) (params_arguments request)) w)))
      as (evs & Hw2 & Hall).
    destruct (dispatch this ext _ _ _) as [[result|t0] w2]; [discriminate|].
    intros [= <- <-]. simpl in Hw2. subst w2. cbn [after cache log].
    split; [exact Hcache|]. split; [|intros e; discriminate].
    exists ([EvCacheGet (cacheKey (params_name request) (params_arguments request))] ++ evs).
    rewrite Hlog, <- app_assoc. split; [reflexivity|].
    intros key [Hin|Hin]; [discriminate|]. exact (handler_event_not_set evs key Hall Hin).
  - intros [= <- <-]. split; [reflexivity|]. split.
    + exists []. rewrite app_nil_r. split; [reflexivity|]. intros key [].
    + intros e' [= <-]. auto.
Qed.

Lemma unknown_name_eqb name s : ~ In name tool_names -> In s tool_names -> String.eqb name s = false.
Proof. intros Hnot Hin. apply String.eqb_neq. intros ->. contradiction. Qed.

Lemma unknown_name_schema name : ~ In name tool_names -> lookup_schema name validationSchemas = None.
Proof.
  intros Hnot. unfold validationSchemas. cbn [lookup_schema].
  rewrite !(String.eqb_sym _ name).
  rewrite !(unknown_name_eqb name _ Hnot) by (simpl; tauto). reflexivity.
Qed.

Lemma unknown_name_dispatch name (args : list (string * value)) w :
  ~ In name tool_names ->
  dispatch this ext name args w
  = (Abrupt (ThrowMcp {| mcp_code := MethodNotFound;
                         mcp_message := "Unknown tool: " +:+ name |}), w).
Proof.
  intros Hnot. unfold dispatch.
  rewrite !(unknown_name_eqb name _ Hnot) by (simpl; tauto). reflexivity.
Qed.

Lemma unknown_name_not_served name cached : ~ In name tool_names -> served cached name = None.
Proof.
  intros Hnot. unfold served, cacheable. cbn [existsb].
  rewrite !(unknown_name_eqb name _ Hnot) by (simpl; tauto).
  destruct cached; [rewrite andb_false_r|]; reflexivity.
Qed.

(** C7, as amended: a call of a name without a handler is answered with
    [MethodNotFound] and the message "Unknown tool: <name>".  No validation rule
    is evaluated, no entry is stored and no handler or retry is entered; the
    cache is read once, under the key of the call, and the result is ignored. *)
Theorem unknown_tool_is_rejected (request : Request) (w : World) :
  ~ In (params_name request) tool_names ->
  lookup_schema (params_name request) validationSchemas = None
  /\ fst (callTool this ext request w)
     = Abrupt (ThrowMcp {| mcp_code := MethodNotFound;
                           mcp_message := "Unknown tool: " +:+ params_name request |})
  /\ cache (snd (callTool this ext request w)) = cache w
  /\ log (snd (callTool this ext request w))
     = log w ++ [EvCacheGet (cacheKey (params_name request) (params_arguments request))].
Proof.
  intros Hnot. split; [apply unknown_name_schema, Hnot|].
  rewrite callTool_run, tryBlock_run. unfold validateInput.
  rewrite (unknown_name_schema _ Hnot). cbv zeta.
  rewrite (unknown_name_not_served _ _ Hnot), (unknown_name_dispatch _ _ _ Hnot).
  destruct (getCachedResponse_world (cacheKey (params_name request) (params_arguments request)) w)
    as (Hcache & _ & Hlog).
  simpl. auto.
Qed.

(** C6, as amended: when the handler of a call raises, the call raises an
    [McpError].  For an error [e] that is not an [McpError] it has the code
    [InternalError] and the message "Tool execution failed: " followed by the
    message of [e]; an [McpError] is passed on as it is.  The code is
    [InternalError] whenever the services throw no [McpError] of their own. *)
Theorem handler_error_surfaces (request : Request) (w : World) (t : Thrown) (w2 : World) :
  let name := params_name request in
  let args := params_arguments request in
  In name tool_names ->
  validateInput name args = Normal tt ->
  served (fresh_data w (cacheKey name args)) name = None ->
  dispatch this ext name args (snd (getCachedResponse (cacheKey name args) w)) = (Abrupt t, w2) ->
  exists m,
    callTool this ext request w = (Abrupt (ThrowMcp m), w2)
    /\ (forall e, t = ThrowError e ->
          m = {| mcp_code := InternalError;
                 mcp_message := "Tool execution failed: " +:+ err_message e |})
    /\ (forall m', t = ThrowMcp m' -> m = m')
    /\ ((forall i m', ext name args i <> Rejects (ThrowMcp m')) -> mcp_code m = InternalError).
Proof.
  intros name args Hin Hvalid Hserved Hdispatch. subst name args. exists (surface t).
  split; [|split; [|split]].
  - rewrite callTool_run, tryBlock_run, Hvalid. cbv zeta.
    rewrite Hserved, Hdispatch. reflexivity.
  - intros e ->. reflexivity.
  - intros m' ->. reflexivity.
  - intros Hplain.
    assert (fst (dispatch this ext (params_name request) (params_arguments request)
                   (snd (getCachedResponse
                           (cacheKey (params_name request) (params_arguments request)) w)))
            = Abrupt t) as Hthrow by (rewrite Hdispatch; reflexivity).
    destruct (dispatch_throws _ _ _ t Hin Hthrow) as [->|[i Hi]].
    + reflexivity.
    + destruct t as [m'|e]; [destruct (Hplain i m' Hi)|reflexivity].
Qed.

(** A fresh entry with a non-empty payload is served to a cacheable tool: the
    payload comes back behind the marker, and the call only reads the cache. *)
Lemma fresh_entry_is_served (request : Request) (w : World) entry payload :
  let name := params_name request in
  let args := params_arguments request in
  validateInput name args = Normal tt ->
  cacheable name = true ->
  cache w !! cacheKey name args = Some entry ->
  now w - timestamp entry < CACHE_TTL ->
  data entry = Some payload ->
  payload <> "" ->
  fst (callTool this ext request w) = Normal {| text := Some ("[CACHED] " +:+ payload) |}
  /\ cache (snd (callTool this ext request w)) = cache w
  /\ log (snd (callTool this ext request w)) = log w ++ [EvCacheGet (cacheKey name args)].
Proof.
  intros name args Hvalid Hcacheable Hentry Hage Hdata Hpayload. subst name args.
  rewrite callTool_run, tryBlock_run, Hvalid. cbv zeta. unfold fresh_data. rewrite Hentry.
  apply Z.ltb_lt in Hage. rewrite Hage, Hdata. unfold served. rewrite Hcacheable.
  apply String.eqb_neq in Hpayload. rewrite Hpayload.
  destruct (getCachedResponse_world
              (cacheKey (params_name request) (params_arguments request)) w)
    as (Hcache & _ & Hlog).
  simpl. auto.
Qed.

(** The result of a handler that succeeds for a cacheable tool is returned and
    stored under the key of the call, provided the two readings of the clock
    in [setCachedResponse] are not further apart than the TTL. *)
Lemma result_is_stored (request : Request) (w : World) result w2 :
  let name := params_name request in
  let args := params_arguments request in
  validateInput name args = Normal tt ->
  cacheable name = true ->
  served (fresh_data w (cacheKey name args)) name = None ->
  dispatch this ext name args (snd (getCachedResponse (cacheKey name args) w))
  = (Normal result, w2) ->
  clock w2 (S (ticks w2)) - now w2 <= CACHE_TTL ->
  fst (callTool this ext request w) = Normal {| text := result |}
  /\ cache (snd (callTool this ext request w)) !! cacheKey name args
     = Some {| data := result; timestamp := now w2 |}
  /\ clock (snd (callTool this ext request w)) = clock w2
  /\ (ticks w2 < ticks (snd (callTool this ext request w)))%nat.
Proof.
  intros name args Hvalid Hcacheable Hserved Hdispatch Hclock. subst name args.
  rewrite callTool_run, tryBlock_run, Hvalid. cbv zeta.
  rewrite Hserved, Hdispatch, Hcacheable.
  cbn [fst snd]. split; [reflexivity|]. split; [|split].
  - rewrite setCachedResponse_cache.
    assert (stored (cacheKey (params_name request) (params_arguments request)) result w2
              !! cacheKey (params_name request) (params_arguments request)
            = Some {| data := result; timestamp := now w2 |}) as Hstored
      by apply lookup_insert_eq.
    destruct (1000 <? size _)%nat; [|exact Hstored].
    apply sweep_lookup. split; [exact Hstored|]. simpl. lia.
  - unfold setCachedResponse, cache_set, cache_size, with_cache, bind, emit, Date_now, ret.
    cbn [fst snd cache clock ticks log]. destruct (1000 <? size _)%nat; reflexivity.
  - unfold setCachedResponse, cache_set, cache_size, with_cache, bind, emit, Date_now, ret.
    cbn [fst snd cache clock ticks log]. destruct (1000 <? size _)%nat; simpl; lia.
Qed.

(** X17: A call whose payload is not empty, repeated within the TTL, is served from
    the cache: the handler is not entered again and the payload is the same. *)
Lemma repeated_call_is_served (request : Request) (w : World) payload w2 :
  let name := params_name request in
  let args := params_arguments request in
  let w1 := snd (callTool this ext request w) in
  validateInput name args = Normal tt ->
  cacheable name = true ->
  served (fresh_data w (cacheKey name args)) name = None ->
  dispatch this ext name args (snd (getCachedResponse (cacheKey name args) w))
  = (Normal (Some payload), w2) ->
  clock w2 (S (ticks w2)) - now w2 <= CACHE_TTL ->
  payload <> "" ->
  now w1 - now w2 < CACHE_TTL ->
  fst (callTool this ext request w) = Normal {| text := Some payload |}
  /\ fst (callTool this ext request w1) = Normal {| text := Some ("[CACHED] " +:+ payload) |}
  /\ exists evs, log (snd (callTool this ext request w1)) = log w1 ++ evs
                 /\ handler_runs evs = 0%nat.
Proof.
  intros name args w1 Hvalid Hcacheable Hserved Hdispatch Hclock Hpayload Hage.
  subst name args w1.
  destruct (result_is_stored request w (Some payload) w2 Hvalid Hcacheable Hserved
              Hdispatch Hclock) as (Hfirst & Hstored & _).
  split; [exact Hfirst|].
  destruct (fresh_entry_is_served request (snd (callTool this ext request w)) _ payload
              Hvalid Hcacheable Hstored Hage eq_refl Hpayload) as (Hsecond & _ & Hlog).
  split; [exact Hsecond|]. eexists. split; [exact Hlog|]. reflexivity.
Qed.

Lemma handler_events_no_keys evs : forallb handler_event evs = true -> cache_keys evs = [].
Proof.
  induction evs as [|ev evs IH]; [reflexivity|]. simpl. intros Hall.
  apply andb_true_iff in Hall as [Hev Hall]. rewrite (IH Hall).
  destruct ev; try discriminate Hev; reflexivity.
Qed.

Lemma cache_keys_app evs evs' : cache_keys (evs ++ evs') = cache_keys evs ++ cache_keys evs'.
Proof. unfold cache_keys. apply flat_map_app. Qed.

Lemma setCachedResponse_log key result w :
  exists evs, log (snd (setCachedResponse key result w)) = log w ++ evs
              /\ cache_keys evs = [key].
Proof.
  unfold setCachedResponse, cache_set, cache_size, with_cache, bind, emit, Date_now, ret.
  cbn [fst snd cache clock ticks log].
  destruct (1000 <? size _)%nat; cbn [fst snd cache clock ticks log].
  - eexists [EvCacheSet key; EvCacheSweep _]. rewrite <- app_assoc. split; reflexivity.
  - exists [EvCacheSet key]. split; reflexivity.
Qed.

(** Every access of a call to the cache goes through the key of the call. *)
Lemma callTool_cache_keys (request : Request) (w : World) :
  exists evs,
    log (snd (callTool this ext request w)) = log w ++ evs
    /\ Forall (eq (cacheKey (params_name request) (params_arguments request))) (cache_keys evs).
Proof.
  rewrite callTool_run, tryBlock_run.
  destruct (validateInput (params_name request) (params_arguments request)) as [[]|e].
  2: { exists []. simpl. rewrite app_nil_r. auto. }
  cbv zeta.
  destruct (getCachedResponse_world (cacheKey (params_name request) (params_arguments request)) w)
    as (_ & _ & Hlog).
  destruct (served _ _) as [payload|].
  { eexists. split; [exact Hlog|]. simpl. auto. }
  destruct (dispatch_world (params_name request) (params_arguments request)
              (snd (getCachedResponse
                      (cacheKey (params_name request) (params_arguments request)) w)))
    as (evs & Hw2 & Hall).
  apply handler_events_no_keys in Hall.
  destruct (dispatch this ext _ _ _) as [[result|t0] w2]; simpl in Hw2; subst w2.
  - destruct (cacheable (params_name request)).
    + destruct (setCachedResponse_log
                  (cacheKey (params_name request) (params_arguments request)) result
                  (after (snd (getCachedResponse
                                 (cacheKey (params_name request) (params_arguments request)) w))
                     evs)) as (evs' & Hlog' & Hkeys).
      exists ([EvCacheGet (cacheKey (params_name request) (params_arguments request))]
              ++ evs ++ evs').
      cbn [fst snd]. rewrite Hlog'. cbn [after log]. rewrite Hlog, <- !app_assoc.
      split; [reflexivity|].
      rewrite !cache_keys_app, Hall, Hkeys. simpl. auto.
    + exists ([EvCacheGet (cacheKey (params_name request) (params_arguments request))] ++ evs).
      cbn [fst snd after log]. rewrite Hlog, <- app_assoc. split; [reflexivity|].
      rewrite cache_keys_app, Hall. simpl. auto.
  - exists ([EvCacheGet (cacheKey (params_name request) (params_arguments request))] ++ evs).
    cbn [fst snd after log]. rewrite Hlog, <- app_assoc. split; [reflexivity|].
    rewrite cache_keys_app, Hall. simpl. auto.
Qed.
End PipelineProperties.

Section CacheKeys.
Context `{JsBuiltins}.

Lemma same_entries_eq (args args' : list (string * jsval number)) :
  same_entries args args' -> args = args'.
Proof.
  unfold same_entries. induction 1 as [|[k v] [k' v'] args args' [Hk Hv] _ IH]; [reflexivity|].
  simpl in Hk, Hv. congruence.
Qed.

(** C8, as amended: two calls with the same tool name whose argument maps list
    the same fields in the same order, with equal values, have the same cache
    key, and that key is the one under which either call reads and writes the
    cache, whatever the server, the services and the state of the process at
    the time of the call. *)
Theorem cacheKey_same_entries (name name' : string) (args args' : list (string * jsval number)) :
  name = name' ->
  same_entries args args' ->
  cacheKey name args = cacheKey name' args'
  /\ forall this this' ext ext' w w',
       exists evs evs',
         log (snd (callTool this ext {| params_name := name; params_arguments := args |} w))
         = log w ++ evs
         /\ log (snd (callTool this' ext' {| params_name := name'; params_arguments := args' |} w'))
            = log w' ++ evs'
         /\ Forall (eq (cacheKey name args)) (cache_keys evs ++ cache_keys evs').
Proof.
  intros <- Hsame. rewrite <- (same_entries_eq _ _ Hsame). split; [reflexivity|].
  intros this this' ext ext' w w'.
  destruct (callTool_cache_keys this ext {| params_name := name; params_arguments := args |} w)
    as (evs & Hlog & Hkeys).
  destruct (callTool_cache_keys this' ext' {| params_name := name; params_arguments := args |} w')
    as (evs' & Hlog' & Hkeys').
  exists evs, evs'. split; [exact Hlog|]. split; [exact Hlog'|].
  apply Forall_app. split; assumption.
Qed.
End CacheKeys.

(** ** Executions *)

(** C1, at an input where the code departs from it: [ask_athena] is called
    twice with the same arguments, the second time within the TTL, and the
    handler returns the empty string.  The result is stored, but the test
    [cached && ...] takes the empty string for a miss: the handler runs again
    and the second response carries no marker. *)
Theorem empty_payload_is_not_served :
  let first := @callTool IntegerRuntime.builtins ready answers_empty ask_hi empty_world in
  let second := @callTool IntegerRuntime.builtins ready answers_empty ask_hi (snd first) in
  cacheable (params_name ask_hi) = true
  /\ fst first = Normal {| text := Some "" |}
  /\ cache (snd first) !! athena_key
     = Some {| data := Some ""; timestamp := 0 |}
  /\ now (snd first) - 0 < CACHE_TTL
  /\ fst second = Normal {| text := Some "" |}
  /\ handler_runs (log (snd first)) = 1%nat
  /\ handler_runs (log (snd second)) = 2%nat.
Proof. vm_compute. repeat split; reflexivity. Qed.

(** The same two calls with a non-empty answer: the second one is served. *)
Example ok_payload_is_served :
  let first := @callTool IntegerRuntime.builtins ready answers_ok ask_hi empty_world in
  let second := @callTool IntegerRuntime.builtins ready answers_ok ask_hi (snd first) in
  fst first = Normal {| text := Some "ok" |}
  /\ fst second = Normal {| text := Some "[CACHED] ok" |}
  /\ handler_runs (log (snd second)) = 1%nat.
Proof. vm_compute. repeat split; reflexivity. Qed.

(** C6 as stated fails: the handler of [ask_athena] raises an error with the
    message "Unauthorized", and the [InternalError] of the call has another
    message. *)
Lemma internal_error_message_is_prefixed :
  fst (@dispatch IntegerRuntime.builtins ready rejects_key "ask_athena" athena_args
         (snd (getCachedResponse athena_key empty_world)))
  = Abrupt (ThrowError unauthorized)
  /\ exists m,
       fst (@callTool IntegerRuntime.builtins ready rejects_key ask_hi empty_world)
       = Abrupt (ThrowMcp m)
       /\ mcp_code m = InternalError
       /\ mcp_message m = "Tool execution failed: Unauthorized"
       /\ mcp_message m <> err_message unauthorized.
Proof.
  split; [reflexivity|]. eexists. split; [reflexivity|]. split; [reflexivity|].
  split; [reflexivity|]. vm_compute. discriminate.
Qed.

Lemma handler_error_surfaces_witness :
  fst (@callTool IntegerRuntime.builtins ready rejects_key ask_hi empty_world)
  = Abrupt (ThrowMcp {| mcp_code := InternalError;
                        mcp_message := "Tool execution failed: Unauthorized" |}).
Proof.
  destruct (@handler_error_surfaces IntegerRuntime.builtins ready rejects_key ask_hi
              empty_world (ThrowError unauthorized)
              (snd (@dispatch IntegerRuntime.builtins ready rejects_key "ask_athena" athena_args
                      (snd (getCachedResponse athena_key empty_world)))))
    as (m & Hcall & Hplain & _).
  - simpl. auto.
  - reflexivity.
  - reflexivity.
  - reflexivity.
  - rewrite Hcall, (Hplain unauthorized eq_refl). reflexivity.
Defined.

(** Three retryable failures in a row: the last error surfaces in the same
    way, after three attempts. *)
Example exhausted_retries_surface :
  let run := @callTool IntegerRuntime.builtins ready (fun _ _ => failing) ask_hi empty_world in
  fst run = Abrupt (ThrowMcp {| mcp_code := InternalError;
                                mcp_message := "Tool execution failed: boom" |})
  /\ attempts (log (snd run)) = 3%nat
  /\ cache (snd run) = cache empty_world.
Proof. vm_compute. repeat split; reflexivity. Qed.

(** C7 as stated fails: the call of an unknown name reads the cache. *)
Lemma unknown_tool_reads_cache :
  ~ In (params_name unknown_call) tool_names
  /\ In (EvCacheGet (@cacheKey IntegerRuntime.builtins "nope" []))
        (log (snd (@callTool IntegerRuntime.builtins ready answers_ok unknown_call
                     empty_world))).
Proof.
  split.
  - simpl. intuition discriminate.
  - vm_compute. left. reflexivity.
Qed.

Lemma unknown_tool_is_rejected_witness :
  fst (@callTool IntegerRuntime.builtins ready answers_ok unknown_call empty_world)
  = Abrupt (ThrowMcp {| mcp_code := MethodNotFound; mcp_message := "Unknown tool: nope" |})
  /\ cache (snd (@callTool IntegerRuntime.builtins ready answers_ok unknown_call empty_world))
     = cache empty_world.
Proof.
  destruct (@unknown_tool_is_rejected IntegerRuntime.builtins ready answers_ok unknown_call
              empty_world) as (_ & Hresult & Hcache & _).
  - simpl. intuition discriminate.
  - split; [exact Hresult | exact Hcache].
Defined.

(** C8 as stated fails: the same fields bound to the same values in another
    order give another key. *)
Lemma reordered_arguments_change_key :
  @same_bindings IntegerRuntime.builtins athena_args athena_args_reordered
  /\ @cacheKey IntegerRuntime.builtins "ask_athena" athena_args
     <> @cacheKey IntegerRuntime.builtins "ask_athena" athena_args_reordered.
Proof.
  split.
  - intros field. unfold athena_args, athena_args_reordered. cbn [get].
    destruct (String.eqb_spec "prompt" field) as [Hprompt|_],
             (String.eqb_spec "context" field) as [Hcontext|_];
      try reflexivity. subst field. discriminate Hcontext.
  - vm_compute. discriminate.
Qed.

Lemma cacheKey_same_entries_witness :
  @cacheKey IntegerRuntime.builtins "ask_athena" athena_args
  = @cacheKey IntegerRuntime.builtins "ask_athena" [("prompt", JStr "hi"); ("context", JStr "c")].
Proof.
  destruct (@cacheKey_same_entries IntegerRuntime.builtins "ask_athena" "ask_athena"
              athena_args [("prompt", JStr "hi"); ("context", JStr "c")]) as [Hkey _].
  - reflexivity.
  - unfold same_entries, athena_args. repeat constructor.
  - exact Hkey.
Defined.

Lemma failed_call_leaves_cache_witness :
  cache (snd (@callTool IntegerRuntime.builtins ready rejects_key ask_hi empty_world))
  = cache empty_world
  /\ snd (@callTool IntegerRuntime.builtins ready answers_ok invalid_call empty_world)
     = empty_world.
Proof.
  split.
  - destruct (@failed_call_leaves_cache IntegerRuntime.builtins ready rejects_key ask_hi
                empty_world
                (ThrowMcp {| mcp_code := InternalError;
                             mcp_message := "Tool execution failed: Unauthorized" |})
                (snd (@callTool IntegerRuntime.builtins ready rejects_key ask_hi empty_world))
                eq_refl) as (Hcache & _).
    exact Hcache.
  - destruct (@failed_call_leaves_cache IntegerRuntime.builtins ready answers_ok invalid_call
                empty_world
                (ThrowMcp {| mcp_code := InvalidParams;
                             mcp_message := "Missing required field: prompt" |})
                (snd (@callTool IntegerRuntime.builtins ready answers_ok invalid_call
                        empty_world))
                eq_refl) as (_ & _ & Hvalidation).
    destruct (Hvalidation (ThrowMcp {| mcp_code := InvalidParams;
                                       mcp_message := "Missing required field: prompt" |})
                          eq_refl) as [Hworld _].
    exact Hworld.
Defined.

(** * Further properties *)

(** ** The retry executor: every run *)

(** A loop that has an iteration left stops at some index [k]: the attempts
    before [k] failed with errors that are retried, each followed by its
    delay, and attempt [k] either resolved, or rejected with an error that is
    thrown because it is not retried or because [k] is the last index. *)
Lemma retry_loop_stops {A} (operation : nat -> Outcome A) maxRetries remaining :
  forall i w,
    (i + S remaining = maxRetries)%nat ->
    exists k,
      (k <= remaining)%nat
      /\ (forall j, (i <= j < i + k)%nat -> fails_retryably (operation j))
      /\ snd (retry_loop operation maxRetries (S remaining) i w)
         = after w (backoff_events i k ++ [EvAttempt (i + k)])
      /\ ((exists v, operation (i + k)%nat = Resolves v
                     /\ fst (retry_loop operation maxRetries (S remaining) i w)
                        = Normal (Some v))
          \/ (exists t, operation (i + k)%nat = Rejects t
                        /\ fst (retry_loop operation maxRetries (S remaining) i w) = Abrupt t
                        /\ ((i + k)%nat = (maxRetries - 1)%nat \/ non_retryable t = true))).
Proof.
  induction remaining as [|remaining IH]; intros i w Hsum; rewrite retry_loop_step.
  - exists 0%nat. rewrite Nat.add_0_r.
    split; [lia|]. split; [intros j Hj; lia|].
    destruct (operation i) as [v|t] eqn:Hop.
    + split; [reflexivity|]. left. eauto.
    + assert ((i =? maxRetries - 1)%nat = true) as -> by (apply Nat.eqb_eq; lia).
      split; [reflexivity|]. right. exists t. repeat split; auto. left. lia.
  - destruct (operation i) as [v|t] eqn:Hop.
    + exists 0%nat. rewrite Nat.add_0_r.
      split; [lia|]. split; [intros j Hj; lia|]. split; [reflexivity|].
      left. eauto.
    + destruct ((i =? maxRetries - 1)%nat || non_retryable t) eqn:Hstop.
      * exists 0%nat. rewrite Nat.add_0_r.
        split; [lia|]. split; [intros j Hj; lia|]. split; [reflexivity|].
        right. exists t. repeat split; auto.
        apply orb_true_iff in Hstop as [Hlast|Hnon]; [left; apply Nat.eqb_eq, Hlast|auto].
      * apply orb_false_iff in Hstop as [_ Hnon].
        destruct (IH (S i) (after w [EvAttempt i; EvSleep (RETRY_DELAY_BASE * 2 ^ Z.of_nat i)])
                    ltac:(lia)) as (k & Hk & Hfail & Hworld & Hresult).
        exists (S k). replace (i + S k)%nat with (S i + k)%nat by lia.
        split; [lia|]. split; [|split].
        -- intros j Hj. destruct (decide (j = i)) as [->|Hne].
           ++ unfold fails_retryably. rewrite Hop. exact Hnon.
           ++ apply Hfail. lia.
        -- rewrite Hworld, after_after. reflexivity.
        -- exact Hresult.
Qed.

Lemma total_sleep_app evs evs' : total_sleep (evs ++ evs') = total_sleep evs + total_sleep evs'.
Proof.
  induction evs as [|ev evs IH]; [reflexivity|].
  simpl. rewrite IH. destruct ev; lia.
Qed.

Lemma total_sleep_backoff i k :
  total_sleep (backoff_events i k) = RETRY_DELAY_BASE * 2 ^ Z.of_nat i * (2 ^ Z.of_nat k - 1).
Proof.
  revert i. induction k as [|k IH]; intros i.
  - simpl. lia.
  - cbn [backoff_events total_sleep fold_right]. fold (total_sleep (backoff_events (S i) k)).
    rewrite IH, !Nat2Z.inj_succ, !Z.pow_succ_r by lia. lia.
Qed.

(** The two ways a run goes, as above; the statements below share it. *)
Lemma withRetry_stops_or_skips {A} (operation : nat -> Outcome A) (maxRetries : nat) (w : World) :
  (maxRetries = 0%nat /\ withRetry operation maxRetries w = (Normal None, w))
  \/ exists k,
       (k < maxRetries)%nat
       /\ (forall j, (j < k)%nat -> fails_retryably (operation j))
       /\ snd (withRetry operation maxRetries w) = after w (backoff_events 0 k ++ [EvAttempt k])
       /\ ((exists v, operation k = Resolves v
                      /\ fst (withRetry operation maxRetries w) = Normal (Some v))
           \/ (exists t, operation k = Rejects t
                         /\ fst (withRetry operation maxRetries w) = Abrupt t
                         /\ (k = (maxRetries - 1)%nat \/ non_retryable t = true))).
Proof.
  unfold withRetry. destruct maxRetries as [|remaining]; [left; auto|]. right.
  destruct (retry_loop_stops operation (S remaining) remaining 0%nat w eq_refl)
    as (k & Hk & Hfail & Hworld & Hresult).
  exists k. split; [lia|]. split; [intros j Hj; apply Hfail; lia|].
  split; [exact Hworld|exact Hresult].
Qed.

(** X1: Every run of [withRetry]: with no attempt allowed it returns [undefined]
    without calling the operation; otherwise it stops at an attempt [k], after
    [k] retryable failures and their delays, with the value of attempt [k] or
    with its error, and an error is final only at the last index or when it is
    not retried. *)
Theorem withRetry_outcomes {A} (operation : nat -> Outcome A) (maxRetries : nat) (w : World) :
  (maxRetries = 0%nat /\ withRetry operation maxRetries w = (Normal None, w))
  \/ exists k,
       (k < maxRetries)%nat
       /\ (forall j, (j < k)%nat -> fails_retryably (operation j))
       /\ snd (withRetry operation maxRetries w) = after w (backoff_events 0 k ++ [EvAttempt k])
       /\ ((exists v, operation k = Resolves v
                      /\ fst (withRetry operation maxRetries w) = Normal (Some v))
           \/ (exists t, operation k = Rejects t
                         /\ fst (withRetry operation maxRetries w) = Abrupt t
                         /\ (k = (maxRetries - 1)%nat \/ non_retryable t = true))).
Proof. exact (withRetry_stops_or_skips operation maxRetries w). Qed.

(** X2: The delays of a run add up to at most [RETRY_DELAY_BASE * (2 ^ (maxRetries
    - 1) - 1)] milliseconds, three seconds for three attempts, and to exactly
    that when every attempt fails with an error that is retried. *)
Theorem withRetry_total_delay {A} (operation : nat -> Outcome A) (maxRetries : nat) (w : World) :
  exists evs,
    snd (withRetry operation maxRetries w) = after w evs
    /\ 0 <= total_sleep evs <= RETRY_DELAY_BASE * (2 ^ Z.of_nat (maxRetries - 1) - 1)
    /\ ((0 < maxRetries)%nat ->
        (forall j, (j < maxRetries)%nat -> fails_retryably (operation j)) ->
        attempts evs = maxRetries
        /\ total_sleep evs = RETRY_DELAY_BASE * (2 ^ Z.of_nat (maxRetries - 1) - 1)).
Proof.
  destruct (withRetry_stops_or_skips operation maxRetries w) as [[-> Hrun]|Hstop].
  - exists []. rewrite Hrun, after_nil. split; [reflexivity|]. simpl. split; [lia|]. lia.
  - destruct Hstop as (k & Hk & Hfail & Hworld & Hresult).
    exists (backoff_events 0 k ++ [EvAttempt k]). split; [exact Hworld|].
    assert (total_sleep (backoff_events 0 k ++ [EvAttempt k])
            = RETRY_DELAY_BASE * (2 ^ Z.of_nat k - 1)) as Htotal.
    { rewrite total_sleep_app, total_sleep_backoff. simpl. lia. }
    rewrite Htotal. unfold RETRY_DELAY_BASE.
    assert (1 <= 2 ^ Z.of_nat k) by (apply Z.pow_le_mono_r with (b := 0) (c := Z.of_nat k); lia).
    assert (2 ^ Z.of_nat k <= 2 ^ Z.of_nat (maxRetries - 1))
      by (apply Z.pow_le_mono_r; lia).
    split; [lia|]. intros Hpos Hall.
    assert (k = (maxRetries - 1)%nat) as ->.
    { destruct Hresult as [(v & Hop & _)|(t & Hop & _ & [Hlast|Hnon])].
      - specialize (Hall k Hk). unfold fails_retryably in Hall. rewrite Hop in Hall. contradiction.
      - exact Hlast.
      - specialize (Hall k Hk). unfold fails_retryably in Hall. rewrite Hop in Hall. congruence. }
    split; [|reflexivity].
    rewrite attempts_app, attempts_backoff. unfold attempts. simpl. lia.
Qed.

Lemma withRetry_total_delay_witness :
  exists evs,
    snd (withRetry failing MAX_RETRIES empty_world) = after empty_world evs
    /\ attempts evs = MAX_RETRIES
    /\ total_sleep evs = 3000.
Proof.
  destruct (withRetry_total_delay failing MAX_RETRIES empty_world) as (evs & Hworld & _ & Hall).
  exists evs. split; [exact Hworld|].
  apply Hall; [unfold MAX_RETRIES; lia|]. intros j Hj. reflexivity.
Defined.

(** ** The response cache: stores and lookups together *)

(** The entry of a store is in the cache afterwards, under the first reading of
    the clock, provided the second reading is not more than the TTL later. *)
Lemma stored_entry_survives key result w :
  clock w (S (ticks w)) - now w <= CACHE_TTL ->
  cache (snd (setCachedResponse key result w)) !! key
  = Some {| data := result; timestamp := now w |}.
Proof.
  intros Hclock. rewrite setCachedResponse_cache.
  assert (stored key result w !! key = Some {| data := result; timestamp := now w |}) as Hstored
    by apply lookup_insert_eq.
  destruct (1000 <? size _)%nat; [|exact Hstored].
  apply sweep_lookup. split; [exact Hstored|]. simpl. lia.
Qed.

(** X3: A stored result is what lookups of its key return for exactly the TTL:
    while the clock shows less than the time of the store plus the TTL the
    lookup returns it, and from then on it returns [null]. *)
Theorem store_then_lookup (key : string) (result : option string) (w w' : World) :
  clock w (S (ticks w)) - now w <= CACHE_TTL ->
  cache w' = cache (snd (setCachedResponse key result w)) ->
  (now w' - now w < CACHE_TTL -> fst (getCachedResponse key w') = Normal result)
  /\ (CACHE_TTL <= now w' - now w -> fst (getCachedResponse key w') = Normal None).
Proof.
  intros Hclock Hcache. rewrite getCachedResponse_result. unfold fresh_data.
  rewrite Hcache, (stored_entry_survives key result w Hclock). cbn [timestamp data].
  split; intros Hage.
  - apply Z.ltb_lt in Hage. rewrite Hage. reflexivity.
  - apply Z.ltb_ge in Hage. rewrite Hage. reflexivity.
Qed.

Lemma store_then_lookup_witness :
  fst (getCachedResponse "k" (snd (setCachedResponse "k" (Some "v") empty_world)))
  = Normal (Some "v").
Proof.
  destruct (store_then_lookup "k" (Some "v") empty_world
              (snd (setCachedResponse "k" (Some "v") empty_world))) as [Hfresh _].
  - vm_compute. discriminate.
  - reflexivity.
  - apply Hfresh. vm_compute. reflexivity.
Defined.

(** X4: What a store does to the entries of the other keys: it never adds or
    changes one; it keeps every one whose age at the second reading of the
    clock is at most the TTL; with no more than 1000 entries held it keeps
    them all; above that mark it removes the ones that are older than the
    TTL. *)
Theorem store_and_other_keys (key : string) (result : option string) (w : World) (k : string) :
  k <> key ->
  (forall entry,
      cache (snd (setCachedResponse key result w)) !! k = Some entry ->
      cache w !! k = Some entry)
  /\ (forall entry,
        cache w !! k = Some entry ->
        clock w (S (ticks w)) - timestamp entry <= CACHE_TTL ->
        cache (snd (setCachedResponse key result w)) !! k = Some entry)
  /\ ((size (stored key result w) <= 1000)%nat ->
      cache (snd (setCachedResponse key result w)) !! k = cache w !! k)
  /\ (forall entry,
        (1000 < size (stored key result w))%nat ->
        cache w !! k = Some entry ->
        CACHE_TTL < clock w (S (ticks w)) - timestamp entry ->
        cache (snd (setCachedResponse key result w)) !! k = None).
Proof.
  intros Hne.
  assert (stored key result w !! k = cache w !! k) as Hother
    by (unfold stored; apply lookup_insert_ne; congruence).
  rewrite setCachedResponse_cache. repeat split.
  - intros entry. destruct (1000 <? size _)%nat; [|congruence].
    rewrite sweep_lookup. intros [Hin _]. congruence.
  - intros entry Hin Hage. destruct (1000 <? size _)%nat; [|congruence].
    apply sweep_lookup. split; [congruence|lia].
  - intros Hsize. apply Nat.ltb_ge in Hsize. rewrite Hsize. exact Hother.
  - intros entry Hsize Hin Hage. apply Nat.ltb_lt in Hsize. rewrite Hsize.
    destruct (sweep _ _ !! k) as [entry'|] eqn:Hswept; [|reflexivity].
    apply sweep_lookup in Hswept as [Hin' Hold].
    assert (entry' = entry) as -> by congruence. lia.
Qed.

Lemma store_and_other_keys_witness :
  cache (snd (setCachedResponse "fresh" (Some "x") full_world)) !! "7"
  = Some {| data := Some "old"; timestamp := 0 |}.
Proof.
  destruct (store_and_other_keys "fresh" (Some "x") full_world "7") as (_ & Hkept & _).
  - discriminate.
  - apply Hkept; [reflexivity|]. vm_compute. discriminate.
Defined.

(** X5: The size of the cache after a store: at most one more than before, not
    more than before when the key was there, and exactly the stored entries
    when none of them is older than the TTL: the mark of 1000 entries starts
    the sweep but is no bound on the size. *)
Theorem store_size (key : string) (result : option string) (w : World) :
  (size (cache (snd (setCachedResponse key result w))) <= S (size (cache w)))%nat
  /\ (is_Some (cache w !! key) ->
      (size (cache (snd (setCachedResponse key result w))) <= size (cache w))%nat)
  /\ ((forall k entry,
          cache w !! k = Some entry -> clock w (S (ticks w)) - timestamp entry <= CACHE_TTL) ->
      clock w (S (ticks w)) - now w <= CACHE_TTL ->
      cache (snd (setCachedResponse key result w)) = stored key result w
      /\ (cache w !! key = None ->
          size (cache (snd (setCachedResponse key result w))) = S (size (cache w)))).
Proof.
  assert (size (cache (snd (setCachedResponse key result w))) <= size (stored key result w))%nat
    as Hle.
  { rewrite setCachedResponse_cache. destruct (1000 <? size _)%nat; [|lia].
    apply map_size_filter. }
  assert (size (stored key result w)
          = match cache w !! key with Some _ => size (cache w) | None => S (size (cache w)) end)
    as Hstored.
  { unfold stored. rewrite map_size_insert. destruct (cache w !! key); reflexivity. }
  split; [|split].
  - rewrite Hstored in Hle. destruct (cache w !! key); lia.
  - intros [entry Hentry]. rewrite Hstored, Hentry in Hle. exact Hle.
  - intros Hfresh Hclock.
    assert (cache (snd (setCachedResponse key result w)) = stored key result w) as Hall.
    { rewrite setCachedResponse_cache. destruct (1000 <? size _)%nat; [|reflexivity].
      apply map_filter_id. intros k entry. unfold stored. simpl.
      destruct (decide (k = key)) as [->|Hne].
      - rewrite lookup_insert_eq. intros [= <-]. simpl. lia.
      - rewrite lookup_insert_ne by congruence. intros Hin.
        specialize (Hfresh k entry Hin). lia. }
    split; [exact Hall|]. intros Hnew. rewrite Hall, Hstored, Hnew. reflexivity.
Qed.

Lemma store_size_witness :
  size (cache (snd (setCachedResponse "fresh" (Some "x") full_world))) = 1001%nat.
Proof.
  destruct (store_size "fresh" (Some "x") full_world) as (_ & _ & Hall).
  destruct Hall as [_ Hsize].
  - intros k entry Hin. change (clock full_world (S (ticks full_world))) with 300000.
    unfold full_world, full_cache in Hin. cbn [cache] in Hin.
    apply elem_of_list_to_map_2, list_elem_of_In, in_map_iff in Hin.
    destruct Hin as (k' & [= _ <-] & _). vm_compute. discriminate.
  - vm_compute. discriminate.
  - rewrite Hsize; reflexivity.
Defined.

(** ** Schema validation: what each tool accepts *)

Section ValidationAcceptance.
Context `{JsBuiltins}.

Local Abbreviation value := (jsval number).

(** X6: On the registered schemas validation either passes or fails with
    [InvalidParams]: it throws nothing else, whatever the arguments hold. *)
Theorem validateInput_only_invalid_params (toolName : string) (args : list (string * value)) :
  validateInput toolName args = Normal tt
  \/ exists message, validateInput toolName args = invalid message.
Proof.
  unfold validateInput.
  destruct (lookup_schema toolName validationSchemas) as [schema|] eqn:Hschema; [|auto].
  rewrite (validateFields_refines schema args (registered_schemas_well_typed _ _ Hschema)).
  unfold amended_validateFields. destruct (first_violation _) as [message|]; simpl; eauto.
Qed.

Lemma validateFields_same_fields schema (args args' : list (string * value)) :
  (forall field r, In (field, r) schema -> get args field = get args' field) ->
  validateFields schema args = validateFields schema args'.
Proof.
  induction schema as [|[field r] schema IH]; intros Hsame; [reflexivity|].
  cbn [validateFields]. rewrite (Hsame field r) by (left; reflexivity).
  rewrite IH; [reflexivity|]. intros field' r' Hin. apply (Hsame field' r'). right. exact Hin.
Qed.

(** X7: Validation looks at the fields of the schema and at nothing else: two
    argument maps that agree on them get the same verdict, whatever other
    fields they hold and in whatever order. *)
Theorem validateInput_declared_fields_only (toolName : string)
    (args args' : list (string * value)) :
  (forall schema field r,
      lookup_schema toolName validationSchemas = Some schema ->
      In (field, r) schema ->
      get args field = get args' field) ->
  validateInput toolName args = validateInput toolName args'.
Proof.
  intros Hsame. unfold validateInput.
  destruct (lookup_schema toolName validationSchemas) as [schema|] eqn:Hschema; [|reflexivity].
  apply validateFields_same_fields. intros field r. apply (Hsame schema field r eq_refl).
Qed.

Lemma validateFields_cons_ok field r schema (args : list (string * value)) :
  validateFields ((field, r) :: schema) args = Normal tt <->
  checkField field r (get args field) = Normal tt /\ validateFields schema args = Normal tt.
Proof.
  cbn [validateFields]. destruct (checkField field r (get args field)) as [[]|t]; simpl.
  - tauto.
  - split; [discriminate|]. intros [Hfalse _]. discriminate Hfalse.
Qed.

Lemma cbind_ok (c k : Completion unit) :
  cbind c (fun _ => k) = Normal tt <-> c = Normal tt /\ k = Normal tt.
Proof.
  destruct c as [[]|t]; simpl; [tauto|].
  split; [discriminate|]. intros [Hfalse _]. discriminate Hfalse.
Qed.

Lemma fail_if_ok violated message : fail_if violated message = Normal tt <-> violated = false.
Proof. destruct violated; simpl; unfold invalid; split; congruence. Qed.

Lemma includes_In members s : @includes _ members (JStr s) = true <-> In s members.
Proof.
  simpl. rewrite existsb_exists. split.
  - intros (m & Hin & Heq). apply String.eqb_eq in Heq. subst m. exact Hin.
  - intros Hin. exists s. split; [exact Hin|apply String.eqb_refl].
Qed.

(** A field of type string passes when it is absent and not required, or when
    it is a string within the length bounds that are set and among the
    members of the enumeration, if there is one. *)
Lemma checkField_string field req minL maxL en (v : value) :
  checkField field (rules TyString req minL maxL None None en) v = Normal tt <->
  match v with
  | JUndefined => req = false
  | JStr s =>
      (forall n, truthy_bound minL = Some n -> n <= Z.of_nat (String.length s))
      /\ (forall n, truthy_bound maxL = Some n -> Z.of_nat (String.length s) <= n)
      /\ (forall members, en = Some members -> In s members)
  | _ => False
  end.
Proof.
  unfold checkField, rules.
  cbn [Rules.type Rules.required Rules.minLength Rules.maxLength Rules.min Rules.max Rules.enum
       truthy_bound].
  rewrite cbind_ok, fail_if_ok.
  destruct v; cbn [nullish is_undefined typeof];
    try (rewrite !cbind_ok, !fail_if_ok;
         cbn [andb negb bool_decide decide decide_rel]; intuition discriminate).
  - rewrite andb_true_r. intuition.
  - rewrite andb_false_r, !cbind_ok, !fail_if_ok.
    cbn [andb negb bool_decide decide decide_rel].
    assert ((match truthy_bound minL with
             | Some n => cbind (length_lt (JStr s) n)
                           (fun short => fail_if short ("Field " +:+ field +:+ " must be at least "
                                                        +:+ pretty n +:+ " characters"))
             | None => Normal tt
             end = Normal tt)
            <-> (forall n, truthy_bound minL = Some n -> n <= Z.of_nat (String.length s)))
      as ->.
    { destruct (truthy_bound minL) as [lo|]; [|split; [discriminate|reflexivity]].
      cbn [length_lt cbind]. rewrite fail_if_ok, Z.ltb_ge.
      split; [intros Hlo n [= <-]; exact Hlo | intros Hlo; apply Hlo; reflexivity]. }
    assert ((match truthy_bound maxL with
             | Some n => cbind (length_gt (JStr s) n)
                           (fun long => fail_if long ("Field " +:+ field +:+ " must be at most "
                                                      +:+ pretty n +:+ " characters"))
             | None => Normal tt
             end = Normal tt)
            <-> (forall n, truthy_bound maxL = Some n -> Z.of_nat (String.length s) <= n))
      as ->.
    { destruct (truthy_bound maxL) as [hi|]; [|split; [discriminate|reflexivity]].
      cbn [length_gt cbind]. rewrite fail_if_ok, Z.ltb_ge.
      split; [intros Hhi n [= <-]; exact Hhi | intros Hhi; apply Hhi; reflexivity]. }
    assert ((match en with
             | Some members =>
                 fail_if (negb (includes members (JStr s)))
                   ("Field " +:+ field +:+ " must be one of: " +:+ join ", " members)
             | None => Normal tt
             end = Normal tt)
            <-> (forall members, en = Some members -> In s members))
      as ->.
    { destruct en as [members|]; [|split; [discriminate|reflexivity]].
      rewrite fail_if_ok, negb_false_iff, includes_In.
      split; [intros Hin m [= <-]; exact Hin | intros Hin; apply Hin; reflexivity]. }
    intuition.
Qed.

(** A field of type number passes when it is absent and not required, or when
    it is a Number that is neither below the lower bound nor above the upper
    bound, where one is set.  No test asks for an integer, and a Number that
    compares false both ways, as [NaN] does, passes. *)
Lemma checkField_number field req lo hi (v : value) :
  checkField field (rules TyNumber req None None lo hi None) v = Normal tt <->
  match v with
  | JUndefined => req = false
  | JNum x =>
      (forall n, truthy_bound lo = Some n -> num_lt x (num_of_Z n) = false)
      /\ (forall n, truthy_bound hi = Some n -> num_lt (num_of_Z n) x = false)
  | _ => False
  end.
Proof.
  unfold checkField, rules.
  cbn [Rules.type Rules.required Rules.minLength Rules.maxLength Rules.min Rules.max Rules.enum
       truthy_bound].
  rewrite cbind_ok, fail_if_ok.
  destruct v; cbn [nullish is_undefined typeof];
    try (rewrite !cbind_ok, !fail_if_ok;
         cbn [andb negb bool_decide decide decide_rel]; intuition discriminate).
  - rewrite andb_true_r. intuition.
  - rewrite andb_false_r, !cbind_ok, !fail_if_ok.
    cbn [andb negb bool_decide decide decide_rel].
    assert ((match truthy_bound lo with
             | Some m => fail_if (js_lt (JNum n) m)
                           ("Field " +:+ field +:+ " must be at least " +:+ pretty m)
             | None => Normal tt
             end = Normal tt)
            <-> (forall m, truthy_bound lo = Some m -> num_lt n (num_of_Z m) = false))
      as ->.
    { destruct (truthy_bound lo) as [m|]; [|split; [discriminate|reflexivity]].
      rewrite fail_if_ok. unfold js_lt, to_number.
      split; [intros Hlo m' [= <-]; exact Hlo | intros Hlo; apply Hlo; reflexivity]. }
    assert ((match truthy_bound hi with
             | Some m => fail_if (js_gt (JNum n) m)
                           ("Field " +:+ field +:+ " must be at most " +:+ pretty m)
             | None => Normal tt
             end = Normal tt)
            <-> (forall m, truthy_bound hi = Some m -> num_lt (num_of_Z m) n = false))
      as ->.
    { destruct (truthy_bound hi) as [m|]; [|split; [discriminate|reflexivity]].
      rewrite fail_if_ok. unfold js_gt, to_number.
      split; [intros Hhi m' [= <-]; exact Hhi | intros Hhi; apply Hhi; reflexivity]. }
    intuition.
Qed.

Lemma required_string_shape (v : value) (P : string -> Prop) :
  match v with JUndefined => true = false | JStr s => P s | _ => False end
  <-> exists s, v = JStr s /\ P s.
Proof.
  destruct v; split; try discriminate; try contradiction;
    try (intros (s0 & Heq & _); discriminate Heq).
  - intros HP. eauto.
  - intros (s0 & [= <-] & HP). exact HP.
Qed.

Lemma optional_string_shape (v : value) (P : string -> Prop) :
  match v with JUndefined => false = false | JStr s => P s | _ => False end
  <-> v = JUndefined \/ exists s, v = JStr s /\ P s.
Proof.
  destruct v; split; auto; try contradiction;
    try (intros [Heq|(s0 & Heq & _)]; discriminate Heq).
  - intros HP. right. eauto.
  - intros [Heq|(s0 & [= <-] & HP)]; [discriminate Heq|exact HP].
Qed.

Lemma optional_number_shape (v : value) (P : number -> Prop) :
  match v with JUndefined => false = false | JNum x => P x | _ => False end
  <-> v = JUndefined \/ exists x, v = JNum x /\ P x.
Proof.
  destruct v; split; auto; try contradiction;
    try (intros [Heq|(x0 & Heq & _)]; discriminate Heq).
  - intros HP. right. eauto.
  - intros [Heq|(x0 & [= <-] & HP)]; [discriminate Heq|exact HP].
Qed.

Lemma set_bound (a : Z) (Q : Z -> Prop) : (forall n, Some a = Some n -> Q n) <-> Q a.
Proof. split; [intros HQ; apply HQ; reflexivity | intros HQ n [= <-]; exact HQ]. Qed.

Lemma set_members (l : list string) (Q : list string -> Prop) :
  (forall members, Some l = Some members -> Q members) <-> Q l.
Proof. split; [intros HQ; apply HQ; reflexivity | intros HQ n [= <-]; exact HQ]. Qed.

(** X8: [ask_athena] accepts exactly the argument maps whose [prompt] is a string
    of 1 to 2000 code units; nothing else is looked at. *)
Theorem ask_athena_accepts (args : list (string * value)) :
  validateInput "ask_athena" args = Normal tt <->
  exists prompt,
    get args "prompt" = JStr prompt /\ 1 <= Z.of_nat (String.length prompt) <= 2000.
Proof.
  unfold validateInput.
  change (lookup_schema "ask_athena" validationSchemas)
    with (Some [("prompt", rules TyString true (Some 1) (Some 2000) None None None)]).
  rewrite validateFields_cons_ok, checkField_string. cbn [validateFields truthy_bound].
  rewrite required_string_shape.
  split.
  - intros [(s & Hs & Hlo & Hhi & _) _]. exists s. split; [exact Hs|].
    apply set_bound in Hlo, Hhi. lia.
  - intros (s & Hs & Hlen). split; [|reflexivity]. exists s. split; [exact Hs|].
    rewrite !set_bound. split; [lia|]. split; [lia|]. discriminate.
Qed.

(** X9: [image_generate] accepts exactly the argument maps with a [prompt] that is
    a string of 1 to 1000 code units, a [size] that is absent or one of the
    three sizes, and an [n] that is absent or a Number neither below 1 nor
    above 4. *)
Theorem image_generate_accepts (args : list (string * value)) :
  validateInput "image_generate" args = Normal tt <->
  (exists prompt,
      get args "prompt" = JStr prompt /\ 1 <= Z.of_nat (String.length prompt) <= 1000)
  /\ (get args "size" = JUndefined
      \/ exists size, get args "size" = JStr size
                      /\ In size ["256x256"; "512x512"; "1024x1024"])
  /\ (get args "n" = JUndefined
      \/ exists n, get args "n" = JNum n
                   /\ num_lt n (num_of_Z 1) = false /\ num_lt (num_of_Z 4) n = false).
Proof.
  unfold validateInput.
  change (lookup_schema "image_generate" validationSchemas)
    with (Some [("prompt", rules TyString true (Some 1) (Some 1000) None None None);
                ("size", rules TyString false None None None None
                           (Some ["256x256"; "512x512"; "1024x1024"]));
                ("n", rules TyNumber false None None (Some 1) (Some 4) None)]).
  rewrite !validateFields_cons_ok, !checkField_string, checkField_number.
  cbn [validateFields truthy_bound].
  rewrite required_string_shape, optional_string_shape, optional_number_shape.
  split.
  - intros ((s & Hs & Hlo & Hhi & _) & Hsize & Hn & _). split; [|split].
    + exists s. split; [exact Hs|]. apply set_bound in Hlo, Hhi. lia.
    + destruct Hsize as [Hsize|(size & Hsize & _ & _ & Hin)]; [left; exact Hsize|right].
      exists size. split; [exact Hsize|]. apply Hin. reflexivity.
    + destruct Hn as [Hn|(n & Hn & Hlo' & Hhi')]; [left; exact Hn|right].
      exists n. split; [exact Hn|]. split; [apply Hlo'|apply Hhi']; reflexivity.
  - intros ((s & Hs & Hlen) & Hsize & Hn). split; [|split; [|split; [|reflexivity]]].
    + exists s. split; [exact Hs|]. rewrite !set_bound. split; [lia|]. split; [lia|]. discriminate.
    + destruct Hsize as [Hsize|(size & Hsize & Hin)]; [left; exact Hsize|right].
      exists size. split; [exact Hsize|].
      split; [discriminate|]. split; [discriminate|]. intros members [= <-]. exact Hin.
    + destruct Hn as [Hn|(n & Hn & Hlo' & Hhi')]; [left; exact Hn|right].
      exists n. split; [exact Hn|]. split; intros m [= <-]; assumption.
Qed.

(** X10: [analyze_code] accepts exactly the argument maps with a [code] that is a
    string that is not empty, a [language] that is absent or a string, and an
    [analysis_type] that is absent or one of the four kinds. *)
Theorem analyze_code_accepts (args : list (string * value)) :
  validateInput "analyze_code" args = Normal tt <->
  (exists code, get args "code" = JStr code /\ 1 <= Z.of_nat (String.length code))
  /\ (get args "language" = JUndefined \/ exists language, get args "language" = JStr language)
  /\ (get args "analysis_type" = JUndefined
      \/ exists kind, get args "analysis_type" = JStr kind
                      /\ In kind ["review"; "explain"; "optimize"; "debug"]).
Proof.
  unfold validateInput.
  change (lookup_schema "analyze_code" validationSchemas)
    with (Some [("code", rules TyString true (Some 1) None None None None);
                ("language", rules TyString false None None None None None);
                ("analysis_type", rules TyString false None None None None
                                    (Some ["review"; "explain"; "optimize"; "debug"]))]).
  rewrite !validateFields_cons_ok, !checkField_string.
  cbn [validateFields truthy_bound].
  rewrite required_string_shape, !optional_string_shape.
  split.
  - intros ((s & Hs & Hlo & _) & Hlanguage & Hkind & _). split; [|split].
    + exists s. split; [exact Hs|]. apply set_bound in Hlo. exact Hlo.
    + destruct Hlanguage as [Hl|(l & Hl & _)]; [left; exact Hl|right; eauto].
    + destruct Hkind as [Hk|(k & Hk & _ & _ & Hin)]; [left; exact Hk|right].
      exists k. split; [exact Hk|]. apply Hin. reflexivity.
  - intros ((s & Hs & Hlen) & Hlanguage & Hkind). split; [|split; [|split; [|reflexivity]]].
    + exists s. split; [exact Hs|]. rewrite !set_bound. split; [lia|]. split; discriminate.
    + destruct Hlanguage as [Hl|(l & Hl)]; [left; exact Hl|right].
      exists l. split; [exact Hl|]. repeat split; discriminate.
    + destruct Hkind as [Hk|(k & Hk & Hin)]; [left; exact Hk|right].
      exists k. split; [exact Hk|].
      split; [discriminate|]. split; [discriminate|]. intros members [= <-]. exact Hin.
Qed.

(** X11: [web_request] accepts exactly the argument maps with a [url] that is a
    string, the empty one included, and a [method] that is absent or one of
    the five methods in capitals. *)
Theorem web_request_accepts (args : list (string * value)) :
  validateInput "web_request" args = Normal tt <->
  (exists url, get args "url" = JStr url)
  /\ (get args "method" = JUndefined
      \/ exists method, get args "method" = JStr method
                        /\ In method ["GET"; "POST"; "PUT"; "DELETE"; "PATCH"]).
Proof.
  unfold validateInput.
  change (lookup_schema "web_request" validationSchemas)
    with (Some [("url", rules TyString true None None None None None);
                ("method", rules TyString false None None None None
                             (Some ["GET"; "POST"; "PUT"; "DELETE"; "PATCH"]))]).
  rewrite !validateFields_cons_ok, !checkField_string.
  cbn [validateFields truthy_bound].
  rewrite required_string_shape, optional_string_shape.
  split.
  - intros ((s & Hs & _) & Hmethod & _). split; [eauto|].
    destruct Hmethod as [Hm|(m & Hm & _ & _ & Hin)]; [left; exact Hm|right].
    exists m. split; [exact Hm|]. apply Hin. reflexivity.
  - intros ((s & Hs) & Hmethod). split; [|split; [|reflexivity]].
    + exists s. split; [exact Hs|]. repeat split; discriminate.
    + destruct Hmethod as [Hm|(m & Hm & Hin)]; [left; exact Hm|right].
      exists m. split; [exact Hm|].
      split; [discriminate|]. split; [discriminate|]. intros members [= <-]. exact Hin.
Qed.
End ValidationAcceptance.

Lemma validateInput_declared_fields_only_witness :
  @validateInput IntegerRuntime.builtins "ask_athena" athena_with_extras
  = @validateInput IntegerRuntime.builtins "ask_athena" athena_args.
Proof.
  apply (@validateInput_declared_fields_only IntegerRuntime.builtins).
  intros schema field r [= <-] [[= <- _]|[]]. reflexivity.
Defined.

(** ** The request handler: every call *)

Section PipelineFurther.
Context `{JsBuiltins}.
Variable this : Server.
Variable ext : External.

Local Abbreviation value := (jsval number).

Lemma validateInput_throws toolName (args : list (string * value)) t :
  validateInput toolName args = Abrupt t ->
  exists message, t = ThrowMcp {| mcp_code := InvalidParams; mcp_message := message |}.
Proof.
  unfold validateInput.
  destruct (lookup_schema toolName validationSchemas) as [schema|] eqn:Hschema; [|discriminate].
  rewrite (validateFields_refines schema args (registered_schemas_well_typed _ _ Hschema)).
  unfold amended_validateFields. destruct (first_violation _) as [message|]; simpl.
  - intros [= <-]. eauto.
  - discriminate.
Qed.

(** A handler of the [switch] logs its entry, tests the client when it needs
    one, and hands its operation to [withRetry]. *)
Lemma dispatch_known name (args : list (string * value)) w :
  In name tool_names ->
  dispatch this ext name args w =
  if uses_openai name && negb (openai this)
  then (Abrupt (ThrowMcp openai_missing), after w [EvHandler name])
  else withRetry (ext name args) MAX_RETRIES (after w [EvHandler name]).
Proof.
  intros Hin. simpl in Hin.
  destruct Hin as [<-|[<-|[<-|[<-|[<-|[<-|[]]]]]]];
    unfold dispatch, handleAskAthena, handleGetSystemStats, handleAnalyzeCode,
      handleGenerateCode, handleImageGenerate, handleWebRequest, openai_handler,
      plain_handler, bind, throw;
    simpl; destruct (openai this); reflexivity.
Qed.

Lemma dispatch_known_events name (args : list (string * value)) w :
  In name tool_names ->
  exists evs, snd (dispatch this ext name args w) = after w (EvHandler name :: evs)
              /\ forallb retry_event evs = true.
Proof.
  intros Hin. rewrite (dispatch_known name args w Hin).
  destruct (uses_openai name && negb (openai this)).
  - exists []. split; reflexivity.
  - destruct (retry_loop_events (ext name args) MAX_RETRIES MAX_RETRIES 0%nat
                (after w [EvHandler name])) as (evs & Hworld & _ & Hall).
    exists evs. unfold withRetry. rewrite Hworld, after_after. split; [reflexivity|exact Hall].
Qed.

Lemma served_uncacheable cached name : cacheable name = false -> served cached name = None.
Proof.
  intros Hname. destruct cached as [payload|]; [|reflexivity].
  simpl. rewrite Hname, andb_false_r. reflexivity.
Qed.

Lemma stale_entry_not_served w key name :
  (forall entry, cache w !! key = Some entry -> CACHE_TTL <= now w - timestamp entry) ->
  served (fresh_data w key) name = None.
Proof.
  intros Hstale. unfold fresh_data. destruct (cache w !! key) as [entry|]; [|reflexivity].
  specialize (Hstale entry eq_refl). apply Z.ltb_ge in Hstale. rewrite Hstale. reflexivity.
Qed.

(** With arguments: the code of the error tells where the call stopped. *)
Lemma error_codes_with_arguments (request : Request) (w : World) (t : Thrown) (w' : World) :
  let name := params_name request in
  let args := params_arguments request in
  callTool this ext request w = (Abrupt t, w') ->
  exists m,
    t = ThrowMcp m
    /\ (validateInput name args <> Normal tt -> mcp_code m = InvalidParams)
    /\ (validateInput name args = Normal tt -> ~ In name tool_names ->
        mcp_code m = MethodNotFound)
    /\ (validateInput name args = Normal tt -> In name tool_names ->
        (forall i m', ext name args i <> Rejects (ThrowMcp m')) ->
        mcp_code m = InternalError).
Proof.
  intros name args Hcall. subst name args. rewrite callTool_run, tryBlock_run in Hcall.
  destruct (validateInput (params_name request) (params_arguments request))
    as [[]|e] eqn:Hvalid.
  - cbv zeta in Hcall.
    destruct (served _ _); [discriminate Hcall|].
    destruct (dispatch _ _ _ _ _) as [[result|t0] w2] eqn:Hrun; [discriminate Hcall|].
    injection Hcall as <- <-. exists (surface t0).
    split; [reflexivity|]. split; [congruence|]. split.
    + intros _ Hunknown. rewrite unknown_name_dispatch in Hrun by exact Hunknown.
      injection Hrun as <- _. reflexivity.
    + intros _ Hin Hext.
      assert (t0 = ThrowMcp openai_missing
              \/ exists i, ext (params_name request) (params_arguments request) i = Rejects t0)
        as [->|[i Hi]].
      { eapply dispatch_throws; [exact Hin|]. rewrite Hrun. reflexivity. }
      * reflexivity.
      * destruct t0 as [m'|e]; [|reflexivity]. exfalso. exact (Hext i m' Hi).
  - injection Hcall as <- <-. destruct (validateInput_throws _ _ _ Hvalid) as [message ->].
    eexists. split; [reflexivity|]. split; [reflexivity|].
    split; intros Hok; discriminate Hok.
Qed.

(** X13: The tools of the [switch] whose results are not cached run their handler
    at every valid call, whatever the cache holds under the key of the call:
    the response is the one of the handler, the cache is looked up once and
    never written, and the handler is entered exactly once. *)
Theorem uncached_tool_always_runs (request : Request) (w : World) :
  let name := params_name request in
  let args := params_arguments request in
  let key := cacheKey name args in
  In name tool_names ->
  cacheable name = false ->
  validateInput name args = Normal tt ->
  fst (callTool this ext request w)
  = match fst (dispatch this ext name args (snd (getCachedResponse key w))) with
    | Normal result => Normal {| text := result |}
    | Abrupt t => Abrupt (ThrowMcp (surface t))
    end
  /\ cache (snd (callTool this ext request w)) = cache w
  /\ exists evs, log (snd (callTool this ext request w))
                 = log w ++ EvCacheGet key :: EvHandler name :: evs
                 /\ forallb retry_event evs = true.
Proof.
  intros name args key Hin Hname Hvalid. subst name args key.
  rewrite callTool_run, tryBlock_run, Hvalid. cbv zeta.
  rewrite (served_uncacheable _ _ Hname), Hname.
  destruct (dispatch_known_events (params_name request) (params_arguments request)
              (snd (getCachedResponse
                      (cacheKey (params_name request) (params_arguments request)) w)) Hin)
    as (evs & Hworld & Hall).
  destruct (getCachedResponse_world
              (cacheKey (params_name request) (params_arguments request)) w)
    as (Hcache & _ & Hlog).
  destruct (dispatch _ _ _ _ _) as [[result|t0] w2]; cbn [fst snd] in *; subst w2;
    cbn [after cache log]; rewrite Hcache, Hlog, <- app_assoc;
    (split; [reflexivity|]); (split; [reflexivity|]); exists evs; split; auto.
Qed.

(** With arguments: without a client the handler throws as soon as it is
    entered. *)
Lemma missing_client_with_arguments (request : Request) (w : World) :
  let name := params_name request in
  let args := params_arguments request in
  let key := cacheKey name args in
  openai this = false ->
  uses_openai name = true ->
  validateInput name args = Normal tt ->
  served (fresh_data w key) name = None ->
  callTool this ext request w
  = (Abrupt (ThrowMcp openai_missing), after (snd (getCachedResponse key w)) [EvHandler name]).
Proof.
  intros name args key Hclient Hname Hvalid Hmiss. subst name args key.
  rewrite callTool_run, tryBlock_run, Hvalid. cbv zeta. rewrite Hmiss.
  rewrite dispatch_known.
  - rewrite Hname, Hclient. reflexivity.
  - unfold uses_openai in Hname. simpl in Hname. unfold tool_names. simpl.
    repeat match type of Hname with
           | (String.eqb ?a ?b || _) = true =>
               destruct (String.eqb_spec a b) as [->|_]; [tauto|]; simpl in Hname
           end.
    discriminate Hname.
Qed.

(** X15: An entry as old as the TTL or older is not served: the handler runs, and
    when it succeeds its result replaces the entry, under the time of the
    store. *)
Theorem expired_entry_is_replaced (request : Request) (w : World) result w2 :
  let name := params_name request in
  let args := params_arguments request in
  let key := cacheKey name args in
  validateInput name args = Normal tt ->
  cacheable name = true ->
  (forall entry, cache w !! key = Some entry -> CACHE_TTL <= now w - timestamp entry) ->
  dispatch this ext name args (snd (getCachedResponse key w)) = (Normal result, w2) ->
  clock w2 (S (ticks w2)) - now w2 <= CACHE_TTL ->
  fst (callTool this ext request w) = Normal {| text := result |}
  /\ cache (snd (callTool this ext request w)) !! key
     = Some {| data := result; timestamp := now w2 |}.
Proof.
  intros name args key Hvalid Hname Hstale Hrun Hclock.
  destruct (result_is_stored this ext request w result w2 Hvalid Hname
              (stale_entry_not_served w key name Hstale) Hrun Hclock) as (Hresult & Hentry & _).
  split; [exact Hresult|exact Hentry].
Qed.

(** X16: A call that is served from the cache does not touch the cache: the entry
    keeps its timestamp, so it expires one TTL after it was stored, however
    often it is read before. *)
Theorem cache_hit_is_read_only (request : Request) (w : World) entry payload :
  let name := params_name request in
  let args := params_arguments request in
  let key := cacheKey name args in
  let w1 := snd (callTool this ext request w) in
  validateInput name args = Normal tt ->
  cacheable name = true ->
  cache w !! key = Some entry ->
  now w - timestamp entry < CACHE_TTL ->
  data entry = Some payload ->
  payload <> "" ->
  fst (callTool this ext request w) = Normal {| text := Some ("[CACHED] " +:+ payload) |}
  /\ cache w1 = cache w
  /\ log w1 = log w ++ [EvCacheGet key]
  /\ (CACHE_TTL <= now w1 - timestamp entry ->
      exists evs, log (snd (callTool this ext request w1))
                  = log w1 ++ EvCacheGet key :: EvHandler name :: evs).
Proof.
  intros name args key w1 Hvalid Hname Hentry Hage Hdata Hpayload.
  destruct (fresh_entry_is_served this ext request w entry payload Hvalid Hname Hentry Hage
              Hdata Hpayload) as (Hresult & Hcache & Hlog).
  split; [exact Hresult|]. split; [exact Hcache|]. split; [exact Hlog|].
  intros Hold. fold w1 in Hcache.
  assert (served (fresh_data w1 key) name = None) as Hmiss.
  { apply stale_entry_not_served. intros entry'. rewrite Hcache, Hentry.
    intros [= <-]. exact Hold. }
  assert (In name tool_names) as Hin.
  { unfold cacheable in Hname. simpl in Hname. unfold tool_names. simpl.
    repeat match type of Hname with
           | (String.eqb ?a ?b || _) = true =>
               destruct (String.eqb_spec a b) as [->|_]; [tauto|]; simpl in Hname
           end.
    discriminate Hname. }
  destruct (dispatch_known_events name args (snd (getCachedResponse key w1)) Hin)
    as (evs & Hworld & _).
  destruct (getCachedResponse_world key w1) as (_ & _ & Hlog1).
  rewrite callTool_run, tryBlock_run. fold name args. rewrite Hvalid. cbv zeta.
  fold key. rewrite Hmiss, Hname.
  destruct (dispatch this ext name args (snd (getCachedResponse key w1)))
    as [[result|t0] w2]; cbn [fst snd] in *; subst w2.
  - destruct (setCachedResponse_log key result
                (after (snd (getCachedResponse key w1)) (EvHandler name :: evs)))
      as (evs' & Hlog2 & _).
    rewrite Hlog2. cbn [after log]. rewrite Hlog1, <- !app_assoc. simpl. eauto.
  - cbn [after log]. rewrite Hlog1, <- app_assoc. simpl. eauto.
Qed.

(** X18: The request handler writes the cache only under keys that it made for
    [get_system_stats] or [ask_athena]: a cache that holds only such keys
    still does after any call, so no result of another tool is ever cached. *)
Theorem callTool_caches_cacheable_tools_only (request : Request) (w : World) :
  (forall k, is_Some (cache w !! k) -> cacheable_key k) ->
  forall k, is_Some (cache (snd (callTool this ext request w)) !! k) -> cacheable_key k.
Proof.
  intros Hkeys k. rewrite callTool_run, tryBlock_run.
  set (name := params_name request). set (args := params_arguments request).
  destruct (getCachedResponse_world (cacheKey name args) w) as (Hcache & _ & _).
  destruct (dispatch_world this ext name args (snd (getCachedResponse (cacheKey name args) w)))
    as (evs & Hworld & _).
  destruct (validateInput name args) as [[]|e]; [|apply Hkeys]. cbv zeta.
  destruct (served _ _); [cbn [snd]; rewrite Hcache; apply Hkeys|].
  destruct (dispatch this ext name args _) as [[result|t0] w2]; cbn [fst snd] in *; subst w2.
  - destruct (cacheable name) eqn:Hname;
      [|cbn [snd after cache]; rewrite Hcache; apply Hkeys].
    cbn [snd]. rewrite setCachedResponse_cache. intros [entry Hentry].
    assert (stored (cacheKey name args) result
              (after (snd (getCachedResponse (cacheKey name args) w)) evs) !! k
            = Some entry) as Hstored.
    { destruct (1000 <? size _)%nat; [|exact Hentry].
      apply sweep_lookup in Hentry as [Hentry _]. exact Hentry. }
    unfold stored in Hstored. cbn [after cache] in Hstored.
    destruct (decide (k = cacheKey name args)) as [->|Hother].
    + exists name, (template (stringify (JObj args))). split; [exact Hname|reflexivity].
    + rewrite lookup_insert_ne in Hstored by congruence. rewrite Hcache in Hstored.
      apply Hkeys. eauto.
  - cbn [snd after cache]. rewrite Hcache. apply Hkeys.
Qed.

(** A call that comes with arguments is handled as [callTool] says. *)
Lemma handleCall_with_arguments name (args : list (string * value)) w :
  handleCall this ext {| call_name := name; call_arguments := Some args |} w
  = callTool this ext {| params_name := name; params_arguments := args |} w.
Proof. reflexivity. Qed.

(** A call that comes without: validation throws when the tool has a schema;
    otherwise the cache is looked up under the key of [undefined], and a
    handler that is entered throws at once. *)
Lemma handleCall_without_arguments name w :
  handleCall this ext {| call_name := name; call_arguments := None |} w
  = match validateCall name (None : option (list (string * value))) with
    | Abrupt t => (Abrupt (ThrowMcp (surface t)), w)
    | Normal _ =>
        let key := callKey name (None : option (list (string * value))) in
        let w1 := snd (getCachedResponse key w) in
        match served (fresh_data w key) name with
        | Some payload => (Normal {| text := Some ("[CACHED] " +:+ payload) |}, w1)
        | None =>
            match first_property name with
            | Some property =>
                (Abrupt (ThrowMcp (surface (ThrowError (destructure_of_undefined property)))),
                 after w1 [EvHandler name])
            | None =>
                (Abrupt (ThrowMcp {| mcp_code := MethodNotFound;
                                     mcp_message := "Unknown tool: " +:+ name |}), w1)
            end
        end
    end.
Proof.
  unfold handleCall, tryCall, try_catch, bind, lift, throw. cbn [call_name call_arguments].
  destruct (validateCall name None) as [[]|t]; [|reflexivity].
  rewrite getCachedResponse_run. cbv zeta.
  destruct (served _ _); [reflexivity|].
  unfold dispatchCall. destruct (first_property name); [|reflexivity].
  unfold bind, throw. rewrite emit_after. reflexivity.
Qed.

Lemma first_property_known name : In name tool_names -> exists p, first_property name = Some p.
Proof.
  intros Hin. simpl in Hin.
  destruct Hin as [<-|[<-|[<-|[<-|[<-|[<-|[]]]]]]]; eexists; reflexivity.
Qed.

Lemma first_property_unknown name : ~ In name tool_names -> first_property name = None.
Proof.
  intros Hunknown. unfold first_property.
  rewrite !(unknown_name_eqb name) by (exact Hunknown || (simpl; tauto)). reflexivity.
Qed.

Lemma validateCall_throws name t :
  validateCall name (None : option (list (string * value))) = Abrupt t ->
  exists field, t = ThrowError (read_of_undefined field).
Proof.
  unfold validateCall. destruct (lookup_schema name validationSchemas) as [[|[field r] rest]|];
    try discriminate. intros [= <-]. eauto.
Qed.

(** X12: Whatever goes wrong, the request handler throws an [McpError].  Its
    code is [MethodNotFound] when the name is not one of the [switch];
    [InvalidParams] when the call has arguments that validation rejects;
    [InternalError] when the arguments pass and a handler fails, as long as
    the services throw no [McpError] of their own; and [InternalError] again
    when a tool of the [switch] is called without arguments: the [TypeError]
    of reading from [undefined], in [validateInput] or at the head of the
    handler, is wrapped by the [catch] like an error of a handler. *)
Theorem callTool_error_codes (call : Call) (w : World) (t : Thrown) (w' : World) :
  let name := call_name call in
  handleCall this ext call w = (Abrupt t, w') ->
  exists m,
    t = ThrowMcp m
    /\ (~ In name tool_names -> mcp_code m = MethodNotFound)
    /\ (forall args,
          call_arguments call = Some args ->
          validateInput name args <> Normal tt ->
          mcp_code m = InvalidParams)
    /\ (forall args,
          call_arguments call = Some args ->
          validateInput name args = Normal tt ->
          In name tool_names ->
          (forall i m', ext name args i <> Rejects (ThrowMcp m')) ->
          mcp_code m = InternalError)
    /\ (call_arguments call = None ->
        In name tool_names ->
        exists e, m = {| mcp_code := InternalError;
                         mcp_message := "Tool execution failed: " +:+ err_message e |}).
Proof.
  destruct call as [name [args|]]; cbn [call_name call_arguments]; intros Hcall.
  - rewrite handleCall_with_arguments in Hcall.
    destruct (error_codes_with_arguments _ w t w' Hcall) as (m & -> & Hinvalid & Hunknown & Hfails).
    cbn [params_name params_arguments] in *.
    exists m. split; [reflexivity|]. split; [|split; [|split]].
    + intros Hname. apply Hunknown; [|exact Hname].
      unfold validateInput. rewrite (unknown_name_schema name Hname). reflexivity.
    + intros args' [= <-]. exact Hinvalid.
    + intros args' [= <-]. exact Hfails.
    + discriminate.
  - rewrite handleCall_without_arguments in Hcall.
    destruct (validateCall name None) as [[]|t0] eqn:Hvalid.
    + cbv zeta in Hcall. destruct (served _ _) eqn:Hserved; [discriminate Hcall|].
      destruct (first_property name) as [property|] eqn:Hproperty;
        injection Hcall as <- <-; eexists; (split; [reflexivity|]).
      * split; [|split; [|split]]; try (intros; discriminate).
        -- intros Hname. rewrite (first_property_unknown name Hname) in Hproperty.
           discriminate Hproperty.
        -- intros _ _. exists (destructure_of_undefined property). reflexivity.
      * split; [reflexivity|]. split; [|split]; try (intros; discriminate).
        intros _ Hname. destruct (first_property_known name Hname) as [p Hp]. congruence.
    + injection Hcall as <- <-. destruct (validateCall_throws name t0 Hvalid) as [field ->].
      eexists. split; [reflexivity|]. split; [|split; [|split]]; try (intros; discriminate).
      * intros Hname. unfold validateCall in Hvalid.
        rewrite (unknown_name_schema name Hname) in Hvalid. discriminate Hvalid.
      * intros _ _. exists (read_of_undefined field). reflexivity.
Qed.

(** X14: Without an OpenAI client, a call of one of the four tools that need
    one, with arguments that pass validation and no answer in the cache,
    fails as soon as the handler is entered: the error is the [McpError] of
    the handler, not wrapped, the operation is never attempted and nothing is
    awaited.  A call without arguments does not get to the test of the
    client: for [generate_code], which has no schema, the handler throws the
    [TypeError] of the destructuring, and for the three others validation
    throws the one of reading the first field; both are wrapped. *)
Theorem missing_openai_client (call : Call) (w : World) :
  let name := call_name call in
  let key := callKey name (call_arguments call) in
  openai this = false ->
  uses_openai name = true ->
  (forall args,
      call_arguments call = Some args ->
      validateInput name args = Normal tt ->
      served (fresh_data w key) name = None ->
      handleCall this ext call w
      = (Abrupt (ThrowMcp openai_missing),
         after (snd (getCachedResponse key w)) [EvHandler name]))
  /\ (call_arguments call = None ->
      (name = "generate_code" ->
       handleCall this ext call w
       = (Abrupt (ThrowMcp (surface (ThrowError (destructure_of_undefined "requirements")))),
          after (snd (getCachedResponse key w)) [EvHandler name]))
      /\ (name <> "generate_code" ->
          exists field,
            handleCall this ext call w
            = (Abrupt (ThrowMcp (surface (ThrowError (read_of_undefined field)))), w))).
Proof.
  destruct call as [name [args|]]; cbn [call_name call_arguments callKey];
    intros Hclient Hname.
  - split; [|discriminate]. intros args' [= <-] Hvalid Hmiss.
    rewrite handleCall_with_arguments.
    apply (missing_client_with_arguments
             {| params_name := name; params_arguments := args |} w Hclient Hname Hvalid Hmiss).
  - split; [discriminate|]. intros _. rewrite handleCall_without_arguments.
    unfold uses_openai in Hname. simpl in Hname.
    repeat match type of Hname with
           | (String.eqb ?a ?b || _) = true =>
               destruct (String.eqb_spec a b) as [->|_]; simpl in Hname
           end; try discriminate Hname;
      (split; [intros Heq; try discriminate Heq; cbv zeta;
               rewrite (served_uncacheable _ "generate_code" eq_refl); reflexivity
              |intros Hother; try (exfalso; apply Hother; reflexivity);
               eexists; reflexivity]).
Qed.

End PipelineFurther.

Lemma callTool_error_codes_witness :
  exists m,
    fst (@handleCall IntegerRuntime.builtins ready answers_ok ask_without_arguments empty_world)
    = Abrupt (ThrowMcp m)
    /\ mcp_code m = InternalError.
Proof.
  destruct (@callTool_error_codes IntegerRuntime.builtins ready answers_ok
              ask_without_arguments empty_world
              (ThrowMcp (surface (ThrowError (read_of_undefined "prompt"))))
              empty_world eq_refl) as (m & Hm & _ & _ & _ & Hwithout).
  exists m. split.
  - rewrite <- Hm. reflexivity.
  - destruct Hwithout as [e ->]; [reflexivity|simpl; auto|reflexivity].
Defined.

Lemma uncached_tool_always_runs_witness :
  fst (@callTool IntegerRuntime.builtins ready answers_ok review_call review_world)
  = Normal {| text := Some "ok" |}
  /\ cache (snd (@callTool IntegerRuntime.builtins ready answers_ok review_call review_world))
     = cache review_world.
Proof.
  destruct (@uncached_tool_always_runs IntegerRuntime.builtins ready answers_ok review_call
              review_world) as (Hresult & Hcache & _).
  - simpl. auto.
  - reflexivity.
  - reflexivity.
  - split; [exact Hresult|exact Hcache].
Defined.

Lemma missing_openai_client_witness :
  @handleCall IntegerRuntime.builtins no_client answers_ok ask_hi_call empty_world
  = (Abrupt (ThrowMcp openai_missing),
     after (snd (getCachedResponse athena_key empty_world)) [EvHandler "ask_athena"])
  /\ fst (@handleCall IntegerRuntime.builtins no_client answers_ok generate_without_arguments
            empty_world)
     = Abrupt (ThrowMcp {| mcp_code := InternalError;
                           mcp_message := "Tool execution failed: Cannot destructure property 'requirements' of 'args' as it is undefined." |}).
Proof.
  split.
  - destruct (@missing_openai_client IntegerRuntime.builtins no_client answers_ok ask_hi_call
                empty_world eq_refl eq_refl) as [Hwith _].
    apply (Hwith athena_args); reflexivity.
  - destruct (@missing_openai_client IntegerRuntime.builtins no_client answers_ok
                generate_without_arguments empty_world eq_refl eq_refl) as [_ Hwithout].
    destruct (Hwithout eq_refl) as [Hgenerate _]. rewrite (Hgenerate eq_refl). reflexivity.
Defined.

Lemma expired_entry_is_replaced_witness :
  fst (@callTool IntegerRuntime.builtins ready answers_ok ask_hi stale_world)
  = Normal {| text := Some "ok" |}
  /\ cache (snd (@callTool IntegerRuntime.builtins ready answers_ok ask_hi stale_world))
       !! athena_key
     = Some {| data := Some "ok"; timestamp := 300001 |}.
Proof.
  apply (@expired_entry_is_replaced IntegerRuntime.builtins ready answers_ok ask_hi stale_world
           (Some "ok")
           (snd (@dispatch IntegerRuntime.builtins ready answers_ok "ask_athena" athena_args
                   (snd (getCachedResponse athena_key stale_world))))).
  - reflexivity.
  - reflexivity.
  - intros entry Hentry. vm_compute in Hentry. injection Hentry as <-.
    vm_compute. discriminate.
  - reflexivity.
  - vm_compute. discriminate.
Defined.

Lemma cache_hit_is_read_only_witness :
  fst (@callTool IntegerRuntime.builtins ready answers_ok ask_hi warm_world)
  = Normal {| text := Some "[CACHED] old" |}
  /\ exists evs,
       log (snd (@callTool IntegerRuntime.builtins ready answers_ok ask_hi
                   (snd (@callTool IntegerRuntime.builtins ready answers_ok ask_hi
                           warm_world))))
       = log (snd (@callTool IntegerRuntime.builtins ready answers_ok ask_hi warm_world))
         ++ EvCacheGet athena_key :: EvHandler "ask_athena" :: evs.
Proof.
  destruct (@cache_hit_is_read_only IntegerRuntime.builtins ready answers_ok ask_hi warm_world
              {| data := Some "old"; timestamp := 0 |} "old") as (Hresult & _ & _ & Hnext).
  - reflexivity.
  - reflexivity.
  - vm_compute. reflexivity.
  - vm_compute. reflexivity.
  - reflexivity.
  - discriminate.
  - split; [exact Hresult|]. apply Hnext. vm_compute. discriminate.
Defined.

Lemma callTool_caches_cacheable_tools_only_witness : cacheable_key athena_key.
Proof.
  apply (@callTool_caches_cacheable_tools_only IntegerRuntime.builtins ready answers_ok ask_hi
           empty_world).
  - intros k [entry Hentry]. cbn [empty_world cache] in Hentry.
    rewrite lookup_empty in Hentry. discriminate Hentry.
  - vm_compute. eexists. reflexivity.
Defined.

Lemma repeated_call_is_served_witness :
  fst (@callTool IntegerRuntime.builtins ready answers_ok ask_hi
         (snd (@callTool IntegerRuntime.builtins ready answers_ok ask_hi empty_world)))
  = Normal {| text := Some "[CACHED] ok" |}.
Proof.
  destruct (@repeated_call_is_served IntegerRuntime.builtins ready answers_ok ask_hi empty_world
              "ok"
              (snd (@dispatch IntegerRuntime.builtins ready answers_ok "ask_athena" athena_args
                      (snd (getCachedResponse athena_key empty_world)))))
    as (_ & Hsecond & _).
  - reflexivity.
  - reflexivity.
  - reflexivity.
  - reflexivity.
  - vm_compute. discriminate.
  - discriminate.
  - vm_compute. reflexivity.
  - exact Hsecond.
Defined.

(** ** Cache keys tell calls apart *)

Lemma append_nil (s : string) : "" +:+ s = s.
Proof. reflexivity. Qed.

Lemma append_cons (c : ascii) (a b : string) : String c a +:+ b = String c (a +:+ b).
Proof. reflexivity. Qed.

Lemma append_assoc (a b c : string) : (a +:+ b) +:+ c = a +:+ b +:+ c.
Proof.
  induction a as [|x a IH]; [reflexivity|]. rewrite !append_cons, IH. reflexivity.
Qed.

Lemma read_unit_escape c rest : read_unit (escape_unit c +:+ rest) = Some (c, rest).
Proof. destruct c as [[] [] [] [] [] [] [] []]; reflexivity. Qed.

Lemma escape_units_inj a :
  forall b r r',
    escape_units a +:+ String dquote r = escape_units b +:+ String dquote r' ->
    a = b /\ r = r'.
Proof.
  induction a as [|c a IH]; intros [|d b] r r' Heq; cbn [escape_units] in Heq.
  - rewrite !append_nil in Heq. injection Heq as ->. auto.
  - rewrite append_assoc, append_nil in Heq. apply (f_equal read_unit) in Heq.
    rewrite read_unit_escape in Heq. discriminate Heq.
  - rewrite append_assoc, append_nil in Heq. apply (f_equal read_unit) in Heq.
    rewrite read_unit_escape in Heq. discriminate Heq.
  - rewrite !append_assoc in Heq. apply (f_equal read_unit) in Heq.
    rewrite !read_unit_escape in Heq. injection Heq as -> Hrest.
    destruct (IH _ _ _ Hrest) as [-> ->]. auto.
Qed.

(** A string literal of [JSON.stringify] can be read back from the front of
    any text. *)
Lemma quote_inj a b r r' : quote a +:+ r = quote b +:+ r' -> a = b /\ r = r'.
Proof.
  unfold quote. rewrite !append_cons, !append_assoc, !append_cons, !append_nil.
  intros [= Heq]. exact (escape_units_inj _ _ _ _ Heq).
Qed.

Lemma join_cons sep s l :
  join sep (s :: l) = match l with [] => s | _ => s +:+ sep +:+ join sep l end.
Proof. destruct l; reflexivity. Qed.

Lemma join_entries_cons x l :
  join "," (map entry_text (x :: l)) +:+ "}"
  = entry_text x +:+ match l with
                     | [] => "}"
                     | _ => "," +:+ join "," (map entry_text l) +:+ "}"
                     end.
Proof.
  cbn [map]. rewrite join_cons. destruct l as [|p l]; cbn [map]; [reflexivity|].
  rewrite !append_assoc. reflexivity.
Qed.

Lemma entry_text_app k v r :
  entry_text (k, v) +:+ r = quote k +:+ ":" +:+ quote v +:+ r.
Proof. unfold entry_text. cbn [fst snd]. rewrite !append_assoc. reflexivity. Qed.

Lemma entry_text_head kv r : exists r', entry_text kv +:+ r = String dquote r'.
Proof. unfold entry_text, quote. rewrite !append_cons. eauto. Qed.

Lemma join_entries_inj l :
  forall l',
    join "," (map entry_text l) +:+ "}" = join "," (map entry_text l') +:+ "}" -> l = l'.
Proof.
  induction l as [|[k v] l IH]; intros [|[k' v'] l'] Heq.
  - reflexivity.
  - rewrite join_entries_cons in Heq.
    destruct (entry_text_head (k', v') (match l' with
                                        | [] => "}"
                                        | _ => "," +:+ join "," (map entry_text l') +:+ "}"
                                        end)) as [r' Hhead].
    rewrite Hhead in Heq. discriminate Heq.
  - rewrite join_entries_cons in Heq.
    destruct (entry_text_head (k, v) (match l with
                                      | [] => "}"
                                      | _ => "," +:+ join "," (map entry_text l) +:+ "}"
                                      end)) as [r' Hhead].
    rewrite Hhead in Heq. discriminate Heq.
  - rewrite !join_entries_cons, !entry_text_app in Heq.
    apply quote_inj in Heq as [-> Heq]. apply (inj (String.app ":")) in Heq.
    apply quote_inj in Heq as [-> Heq].
    f_equal. destruct l as [|p l], l' as [|p' l'].
    + reflexivity.
    + discriminate Heq.
    + discriminate Heq.
    + apply IH. apply (inj (String.app ",")) in Heq. exact Heq.
Qed.

Lemma no_colon_prefix name :
  forall name' r r',
    no_colon name = true -> no_colon name' = true ->
    name +:+ ":" +:+ r = name' +:+ ":" +:+ r' -> name = name' /\ r = r'.
Proof.
  induction name as [|c name IH]; intros [|c' name'] r r' Hname Hname' Heq;
    rewrite ?append_cons, ?append_nil in Heq; cbn [no_colon] in *.
  - injection Heq as ->. auto.
  - injection Heq as <- _. discriminate Hname'.
  - injection Heq as -> _. discriminate Hname.
  - injection Heq as -> Heq.
    apply andb_true_iff in Hname as [_ Hname]. apply andb_true_iff in Hname' as [_ Hname'].
    assert (name +:+ ":" +:+ r = name' +:+ ":" +:+ r') as Heq'
      by (rewrite ?append_cons, ?append_nil; exact Heq).
    destruct (IH _ _ _ Hname Hname' Heq') as [-> ->]. auto.
Qed.

Lemma tool_names_no_colon name : In name tool_names -> no_colon name = true.
Proof.
  intros Hin. simpl in Hin.
  destruct Hin as [<-|[<-|[<-|[<-|[<-|[<-|[]]]]]]]; reflexivity.
Qed.

Section KeysApart.
Context `{JsBuiltins}.

Local Abbreviation value := (jsval number).

Lemma stringify_string_fields (l : list (string * string)) :
  stringify (JObj (string_fields l) : value)
  = Some ("{" +:+ join "," (map entry_text l) +:+ "}").
Proof.
  assert (omap (fun kv : string * value =>
                  match kv with
                  | (k, x) => match stringify x with
                              | Some s => Some (quote k +:+ ":" +:+ s)
                              | None => None
                              end
                  end) (string_fields l)
          = map entry_text l) as Hprops.
  { induction l as [|[k v] l IH]; [reflexivity|].
    change (string_fields ((k, v) :: l))
      with ((k, JStr v) :: string_fields l : list (string * value)).
    cbn [omap list_omap stringify map]. rewrite IH. reflexivity. }
  cbn [stringify]. rewrite Hprops. reflexivity.
Qed.

(** X19: Calls of two different tools of the [switch] never share a cache key,
    whatever their arguments: a result cached for one tool is never served
    for another. *)
Theorem cacheKey_separates_tools (name name' : string) (args args' : list (string * value)) :
  In name tool_names ->
  In name' tool_names ->
  name <> name' ->
  cacheKey name args <> cacheKey name' args'.
Proof.
  intros Hname Hname' Hdiff Heq. unfold cacheKey in Heq.
  apply no_colon_prefix in Heq as [Heq _]; auto using tool_names_no_colon.
Qed.

(** X20: On argument maps whose values are all strings the key determines the
    call: two calls of a tool share a key only when their argument maps list
    the same properties with the same values in the same order. *)
Theorem cacheKey_injective_on_strings (name : string) (l l' : list (string * string)) :
  cacheKey name (string_fields l : list (string * value))
  = cacheKey name (string_fields l' : list (string * value))
  <-> l = l'.
Proof.
  split; [|intros ->; reflexivity].
  unfold cacheKey. rewrite !stringify_string_fields. cbn [template default].
  intros Heq. apply (inj (String.app name)) in Heq.
  apply (inj (String.app ":")) in Heq. apply (inj (String.app "{")) in Heq.
  exact (join_entries_inj _ _ Heq).
Qed.

End KeysApart.

Lemma cacheKey_separates_tools_witness :
  @cacheKey IntegerRuntime.builtins "ask_athena" []
  <> @cacheKey IntegerRuntime.builtins "get_system_stats" [].
Proof.
  apply (@cacheKey_separates_tools IntegerRuntime.builtins).
  - simpl. auto.
  - simpl. auto.
  - discriminate.
Defined.

(** ** The effort of one call *)

Lemma handler_runs_app evs evs' :
  handler_runs (evs ++ evs') = (handler_runs evs + handler_runs evs')%nat.
Proof. unfold handler_runs. rewrite List.filter_app, length_app. reflexivity. Qed.

(** The events of a run of the retry executor with the default number of
    attempts. *)
Lemma retry_run_effort k :
  (k < MAX_RETRIES)%nat ->
  attempts (backoff_events 0 k ++ [EvAttempt k]) = S k
  /\ handler_runs (backoff_events 0 k ++ [EvAttempt k]) = 0%nat
  /\ cache_keys (backoff_events 0 k ++ [EvAttempt k]) = []
  /\ 0 <= total_sleep (backoff_events 0 k ++ [EvAttempt k]) <= 3000.
Proof.
  unfold MAX_RETRIES. intros Hk.
  destruct k as [|[|[|k]]]; [| | |lia];
    (split; [reflexivity|]); (split; [reflexivity|]); (split; [reflexivity|]);
    vm_compute; split; discriminate.
Qed.

Lemma setCachedResponse_events key result w :
  exists evs, log (snd (setCachedResponse key result w)) = log w ++ evs
              /\ handler_runs evs = 0%nat
              /\ attempts evs = 0%nat
              /\ total_sleep evs = 0
              /\ cache_keys evs = [key].
Proof.
  unfold setCachedResponse, cache_set, cache_size, with_cache, bind, emit, Date_now, ret.
  cbn [fst snd cache clock ticks log].
  destruct (1000 <? size _)%nat; cbn [fst snd cache clock ticks log].
  - eexists [EvCacheSet key; EvCacheSweep _]. rewrite <- app_assoc. repeat split; reflexivity.
  - exists [EvCacheSet key]. repeat split; reflexivity.
Qed.

Ltac count_events :=
  unfold handler_runs, attempts, total_sleep, cache_keys, MAX_RETRIES in *;
  simpl; repeat split; try reflexivity; lia.

Section CallEffort.
Context `{JsBuiltins}.
Variable this : Server.
Variable ext : External.

Local Abbreviation value := (jsval number).

Lemma dispatch_effort name (args : list (string * value)) w :
  exists evs,
    snd (dispatch this ext name args w) = after w evs
    /\ (handler_runs evs <= 1)%nat
    /\ (attempts evs <= MAX_RETRIES)%nat
    /\ 0 <= total_sleep evs <= 3000
    /\ cache_keys evs = [].
Proof.
  destruct (in_dec string_dec name tool_names) as [Hin|Hunknown].
  - rewrite (dispatch_known this ext name args w Hin).
    destruct (uses_openai name && negb (openai this)).
    + exists [EvHandler name]. split; [reflexivity|]. count_events.
    + destruct (withRetry_stops_or_skips (ext name args) MAX_RETRIES
                  (after w [EvHandler name])) as [[Hzero _]|(k & Hk & _ & Hworld & _)];
        [discriminate Hzero|].
      destruct (retry_run_effort k Hk) as (Hattempts & Hruns & Hkeys & Hsleep).
      exists ([EvHandler name] ++ backoff_events 0 k ++ [EvAttempt k]).
      rewrite Hworld, after_after. split; [reflexivity|].
      rewrite handler_runs_app, attempts_app, total_sleep_app, cache_keys_app.
      rewrite Hattempts, Hruns, Hkeys. count_events.
  - rewrite (unknown_name_dispatch this ext name args w Hunknown).
    exists []. rewrite after_nil. split; [reflexivity|]. count_events.
Qed.

(** X21: One call does a bounded amount of work, whatever the arguments, the cache
    and the services do: it enters at most one handler, attempts the operation
    of the handler at most [MAX_RETRIES] times, waits at most three seconds in
    backoff delays, and touches the cache at most twice, with one lookup and
    one store. *)
Theorem callTool_effort (request : Request) (w : World) :
  exists evs,
    log (snd (callTool this ext request w)) = log w ++ evs
    /\ (handler_runs evs <= 1)%nat
    /\ (attempts evs <= MAX_RETRIES)%nat
    /\ 0 <= total_sleep evs <= 3000
    /\ (length (cache_keys evs) <= 2)%nat.
Proof.
  rewrite callTool_run, tryBlock_run.
  set (name := params_name request). set (args := params_arguments request).
  destruct (getCachedResponse_world (cacheKey name args) w) as (_ & _ & Hlog).
  destruct (dispatch_effort name args (snd (getCachedResponse (cacheKey name args) w)))
    as (evs & Hworld & Hruns & Hattempts & Hsleep & Hkeys).
  assert (exists evs0, log w = log w ++ evs0
                       /\ (handler_runs evs0 <= 1)%nat
                       /\ (attempts evs0 <= MAX_RETRIES)%nat
                       /\ 0 <= total_sleep evs0 <= 3000
                       /\ (length (cache_keys evs0) <= 2)%nat) as Hnone.
  { exists []. rewrite app_nil_r. split; [reflexivity|]. count_events. }
  assert (exists evs1, log w ++ [EvCacheGet (cacheKey name args)] ++ evs = log w ++ evs1
                       /\ (handler_runs evs1 <= 1)%nat
                       /\ (attempts evs1 <= MAX_RETRIES)%nat
                       /\ 0 <= total_sleep evs1 <= 3000
                       /\ (length (cache_keys evs1) <= 2)%nat) as Hrun.
  { exists ([EvCacheGet (cacheKey name args)] ++ evs). split; [reflexivity|].
    rewrite handler_runs_app, attempts_app, total_sleep_app, cache_keys_app, Hkeys.
    count_events. }
  destruct (validateInput name args) as [[]|e]; [|exact Hnone]. cbv zeta.
  destruct (served _ _).
  { cbn [snd]. rewrite Hlog. exists [EvCacheGet (cacheKey name args)].
    split; [reflexivity|]. count_events. }
  destruct (dispatch this ext name args _) as [[result|t0] w2]; cbn [fst snd] in *; subst w2.
  - destruct (cacheable name); cbn [snd].
    + destruct (setCachedResponse_events (cacheKey name args) result
                  (after (snd (getCachedResponse (cacheKey name args) w)) evs))
        as (evs' & Hlog' & Hruns' & Hattempts' & Hsleep' & Hkeys').
      rewrite Hlog'. cbn [after log]. rewrite Hlog.
      exists ([EvCacheGet (cacheKey name args)] ++ evs ++ evs').
      rewrite <- !app_assoc. split; [reflexivity|].
      rewrite handler_runs_app, attempts_app, total_sleep_app, cache_keys_app.
      rewrite handler_runs_app, attempts_app, total_sleep_app, cache_keys_app.
      rewrite Hruns', Hattempts', Hsleep', Hkeys', Hkeys. count_events.
    + cbn [after log]. rewrite Hlog, <- app_assoc. exact Hrun.
  - cbn [after log]. rewrite Hlog, <- app_assoc. exact Hrun.
Qed.

End CallEffort.
